(** * The RPC method registry and HTTP dispatcher of [server.go]

    A shallow embedding of the service registry ([serviceMap.register],
    [serviceMap.get]) and of the request lifecycle ([Server.ServeHTTP]),
    followed by the properties of the specification that concern them.

    Go strings are byte strings; they are modelled by [string], one [ascii]
    per byte.  Go maps are [gmap]s; a nil map is [None]. *)

From stdpp Require Import base option list functions gmap strings.
From Stdlib Require Import ZArith Ascii.

Open Scope string_scope.
Open Scope Z_scope.

(** ** The Go runtime outside this package *)

(** [strings.Split s sep] for a one-byte separator: the pieces of [s]
    between the occurrences of [sep]; one more piece than occurrences. *)
Fixpoint Split (s : string) (sep : ascii) : list string :=
  match s with
  | EmptyString => [EmptyString]
  | String c s' =>
      if decide (c = sep) then EmptyString :: Split s' sep
      else match Split s' sep with
           | piece :: rest => String c piece :: rest
           | [] => [String c EmptyString]
           end
  end.

(** [strings.Index s sep] for a one-byte separator: the position of the
    first occurrence, or [-1]. *)
Fixpoint Index (s : string) (sep : ascii) : Z :=
  match s with
  | EmptyString => -1
  | String c s' =>
      if decide (c = sep) then 0
      else let i := Index s' sep in if decide (i = -1) then -1 else 1 + i
  end.

(** The slice expression [s[:n]]; callers keep [n] within the string. *)
Fixpoint slice_to (s : string) (n : nat) : string :=
  match n, s with
  | S n', String c s' => String c (slice_to s' n')
  | _, _ => EmptyString
  end.

(** The functions of [unicode], [unicode/utf8] and [strings] whose tables
    are not part of this package.  The development is parametric in them. *)
Class GoText := {
  DecodeRuneInString : string → Z * Z;
  IsUpper : Z → bool;
  ToLower : string → string
}.

(** ** [reflect]: types, values and methods *)

Module reflect.

(** Kinds other than [Ptr]; [register] only ever asks whether a kind is
    [Ptr]. *)
Inductive PlainKind :=
  Bool | Int | Float64 | String_ | Struct | Interface | Slice | Map | Func | Chan | Array.

Inductive Kind_ := Ptr | Plain (k : PlainKind).

(** A [reflect.Type]: a pointer type with its element type, or a type of
    any other kind.  [name] is empty for an unnamed type, [pkgPath] is
    empty for predeclared and for unnamed types. *)
Inductive Type_ :=
| PtrTo (name pkgPath : string) (elem : Type_)
| Other (k : PlainKind) (name pkgPath : string).

Definition Kind (t : Type_) : Kind_ :=
  match t with PtrTo _ _ _ => Ptr | Other k _ _ => Plain k end.

Definition Name (t : Type_) : string :=
  match t with PtrTo n _ _ => n | Other _ n _ => n end.

Definition PkgPath (t : Type_) : string :=
  match t with PtrTo _ p _ => p | Other _ _ p => p end.

(** [t.Elem()]; it panics ([None]) on the kinds modelled by [Other]. *)
Definition Elem (t : Type_) : option Type_ :=
  match t with PtrTo _ _ e => Some e | Other _ _ _ => None end.

#[global] Instance PlainKind_eq_dec : EqDecision PlainKind.
Proof. solve_decision. Defined.
#[global] Instance Kind_eq_dec : EqDecision Kind_.
Proof. solve_decision. Defined.
#[global] Instance Type_eq_dec : EqDecision Type_.
Proof. solve_decision. Defined.
#[global] Instance Type_inhabited : Inhabited Type_ :=
  populate (Other Struct "" "").

(** A non-zero [reflect.Value] as far as the registry looks at it: its
    type, whether it is a nil pointer, and which object it is. *)
Record Value := { typ : Type_; isNil : bool; addr : positive }.

(** The signature of a method: [NumIn]/[In] and [NumOut]/[Out], the
    receiver being [In(0)]. *)
Record Signature := { ins : list Type_; outs : list Type_ }.

Definition NumIn (sg : Signature) : Z := Z.of_nat (length (ins sg)).
Definition NumOut (sg : Signature) : Z := Z.of_nat (length (outs sg)).
(** [In(i)] and [Out(i)] panic out of range; every use below is guarded
    by a test of [NumIn] or [NumOut]. *)
Definition In (sg : Signature) (i : Z) : Type_ := ins sg !!! Z.to_nat i.
Definition Out (sg : Signature) (i : Z) : Type_ := outs sg !!! Z.to_nat i.

End reflect.

(** The pointer [*http.Request]: [reqAddr] is the identity of the request
    object, the other fields are what the dispatcher reads from it. *)
Record Request := {
  reqAddr : positive;
  reqMethod : string;                 (* r.Method, the HTTP verb *)
  reqContentType : string             (* r.Header.Get("Content-Type") *)
}.

(** The content of an argument or reply buffer, opaque to the dispatcher. *)
Definition Payload := string.

(** The [error] values the package meets.  The [NewRpc...Error]
    constructors and [fmt.Errorf] are kept symbolic, with the arguments
    they are given. *)
Inductive error :=
| Errorf_not_exported (name : string)           (* "rpc: type %q is not exported" *)
| Errorf_no_service_name (t : reflect.Type_)    (* "rpc: no service name for type %q" *)
| Errorf_no_methods (name : string)             (* "rpc: %q has no exported methods of suitable type" *)
| Errorf_already_defined (name : string)        (* "rpc: service already defined: %q" *)
| RpcHTTPMethodNotAllowedError (verb : string)
| RpcHTTPUnsupportedMediaTypeError (contentType : string)
| RpcCodecRequestMethodError (text : string)
| RpcMethodMalformedError (method : string)
| RpcServiceNotFoundError (method : string)
| RpcMethodNotFoundError (method : string)
| RpcCodecReadRequestError (text : string)
| RpcCodecWriteResponseError (text : string)
| ErrorValue (text : string).                   (* an error made by a service method *)

#[global] Instance error_eq_dec : EqDecision error.
Proof. solve_decision. Defined.

(** A [reflect.Method].  [Func] is called by the dispatcher with the
    receiver, the request when the service takes it, and the argument
    buffer; it yields the reply buffer and the returned error. *)
Record Method := {
  Name : string;
  PkgPath : string;
  Typ : reflect.Signature;
  Func : reflect.Value → option Request → Payload → Payload * option error
}.

(** [typeOfError] and [typeOfRequest], lines 295-296. *)
Definition typeOfError : reflect.Type_ := reflect.Other reflect.Interface "error" "".
Definition typeOfRequest : reflect.Type_ := reflect.Other reflect.Struct "Request" "net/http".

(** ** service and serviceMap *)

Module serviceMethod.
Record t := {
  method : Method;
  argsType : reflect.Type_;
  replyType : reflect.Type_
}.
End serviceMethod.

Module service.
Record t := {
  name : string;
  rcvr : reflect.Value;
  rcvrType : reflect.Type_;
  methods : gmap string serviceMethod.t;
  passReq : bool
}.
End service.

(** The registry: [services] is nil until the first successful
    registration.  The mutex is modelled further down, where the
    interleaving of registrations is. *)
Module serviceMap.
Record t := { services : option (gmap string service.t) }.
End serviceMap.

(** Indexing a possibly nil Go map. *)
Definition index {A} (m : option (gmap string A)) (k : string) : option A :=
  m ≫= (.!! k).

(** What a Go call does: it returns, or it panics. *)
Inductive outcome (A : Type) := Returns (a : A) | Panics.
Arguments Returns {A} a.
Arguments Panics {A}.

(** What [reflect] knows of the program's types: [Methods t] lists
    [t.Method(0)], ..., [t.Method(t.NumMethod()-1)]. *)
Class TypeInfo := { Methods : reflect.Type_ → list Method }.

Section Registry.
Context `{GoText} `{TypeInfo}.

(** Line 439. *)
Definition isExported (name : string) : bool :=
  let '(rune, _) := DecodeRuneInString name in IsUpper rune.

(** The loop [for t.Kind() == reflect.Ptr { t = t.Elem() }]. *)
Fixpoint underPointers (t : reflect.Type_) : reflect.Type_ :=
  match t with
  | reflect.PtrTo _ _ e => underPointers e
  | reflect.Other _ _ _ => t
  end.

(** Line 445. *)
Definition isExportedOrBuiltin (t : reflect.Type_) : bool :=
  let t := underPointers t in
  isExported (reflect.Name t) || bool_decide (reflect.PkgPath t = "").

(** [reflect.Indirect(v).Type()]: the type pointed to when [v] is a
    pointer, the type of [v] otherwise.  On a nil pointer [Indirect]
    yields the zero Value, whose [Type()] panics. *)
Definition IndirectType (v : reflect.Value) : outcome reflect.Type_ :=
  match reflect.typ v with
  | reflect.PtrTo _ _ e => if reflect.isNil v then Panics else Returns e
  | t => Returns t
  end.

(** The body of the loop over the methods, lines 349-399: [None] where
    the source says [continue], the table entry otherwise. *)
Definition candidate (passReq : bool) (method : Method) : option serviceMethod.t :=
  let mtype := Typ method in
  let paramOffset := if passReq then 1 else 0 in
  if bool_decide (PkgPath method ≠ "") then None
  else if bool_decide (reflect.NumIn mtype ≠ 3 + paramOffset) then None
  else if passReq &&
          (let reqType := reflect.In mtype 1 in
           bool_decide (reflect.Kind reqType ≠ reflect.Ptr)
           || bool_decide (reflect.Elem reqType ≠ Some typeOfRequest)) then None
  else
    let args := reflect.In mtype (1 + paramOffset) in
    if bool_decide (reflect.Kind args ≠ reflect.Ptr) || negb (isExportedOrBuiltin args) then None
    else
      let reply := reflect.In mtype (2 + paramOffset) in
      if bool_decide (reflect.Kind reply ≠ reflect.Ptr) || negb (isExportedOrBuiltin reply) then None
      else if bool_decide (reflect.NumOut mtype ≠ 1) then None
      else if bool_decide (reflect.Out mtype 0 ≠ typeOfError) then None
      else
        match reflect.Elem args, reflect.Elem reply with
        | Some a, Some r =>
            Some {| serviceMethod.method := method;
                    serviceMethod.argsType := a; serviceMethod.replyType := r |}
        | _, _ => None  (* not reached: both kinds are Ptr *)
        end.

(** The loop itself: [s.methods[method.Name] = ...] for each method kept. *)
Definition setupMethods (passReq : bool) (ms : list Method) : gmap string serviceMethod.t :=
  foldl (λ tbl method,
           match candidate passReq method with
           | Some sm => <[Name method := sm]> tbl
           | None => tbl
           end) ∅ ms.

(** Lines 337-346: the name of the service, or the error returned. *)
Definition serviceName (v : reflect.Value) (name : string) : outcome (string + error) :=
  let derived :=
    if bool_decide (name = "") then
      match IndirectType v with
      | Panics => Panics
      | Returns t =>
          let n := reflect.Name t in
          if negb (isExported n) then Returns (inr (Errorf_not_exported n))
          else Returns (inl n)
      end
    else Returns (inl name) in
  match derived with
  | Returns (inl n) =>
      if bool_decide (n = "") then Returns (inr (Errorf_no_service_name (reflect.typ v)))
      else Returns (inl n)
  | other => other
  end.

(** Lines 405-414, the part run with the mutex held. *)
Definition addToMap (m : serviceMap.t) (s : service.t) : serviceMap.t * option error :=
  match serviceMap.services m with
  | None => ({| serviceMap.services := Some (<[service.name s := s]> ∅) |}, None)
  | Some reg =>
      if bool_decide (is_Some (reg !! service.name s))
      then (m, Some (Errorf_already_defined (service.name s)))
      else ({| serviceMap.services := Some (<[service.name s := s]> reg) |}, None)
  end.

(** [serviceMap.register], line 328.  [rcvr] is the interface value
    passed: [None] is the nil interface, on which [reflect.TypeOf] is nil
    and both [Indirect(..).Type()] and [rcvrType.NumMethod()] panic. *)
Definition register (m : serviceMap.t) (rcvr : option reflect.Value)
    (name : string) (passReq : bool) : serviceMap.t * outcome (option error) :=
  match rcvr with
  | None => (m, Panics)
  | Some v =>
      match serviceName v name with
      | Panics => (m, Panics)
      | Returns (inr e) => (m, Returns (Some e))
      | Returns (inl n) =>
          let s := {| service.name := n; service.rcvr := v;
                      service.rcvrType := reflect.typ v;
                      service.methods := setupMethods passReq (Methods (reflect.typ v));
                      service.passReq := passReq |} in
          if bool_decide (size (service.methods s) = 0%nat)
          then (m, Returns (Some (Errorf_no_methods n)))
          else let '(m', e) := addToMap m s in (m', Returns e)
      end
  end.

(** [serviceMap.get], line 420. *)
Definition get (m : serviceMap.t) (method : string)
  : (service.t * serviceMethod.t) + error :=
  let parts := Split method "." in
  if bool_decide (length parts ≠ 2%nat) then inr (RpcMethodMalformedError method)
  else
    match index (serviceMap.services m) (parts !!! 0%nat) with
    | None => inr (RpcServiceNotFoundError method)
    | Some service =>
        match service.methods service !! (parts !!! 1%nat) with
        | None => inr (RpcMethodNotFoundError method)
        | Some serviceMethod => inl (service, serviceMethod)
        end
    end.

End Registry.

(** ** Registrations running concurrently: the mutex of lines 406-413

    Goroutines that have set up their service (lines 330-404, which touch
    nothing shared) run lines 405-414 interleaved, one statement at a time.
    [svcs t] is the service goroutine [t] has set up. *)

(** Where a goroutine stands. *)
Inductive pc :=
| AtLock                         (* before [m.mutex.Lock()] *)
| AtCheck                        (* before the tests of [m.services] *)
| AtInsert                       (* before [m.services[s.name] = s] *)
| AtUnlock (e : option error)    (* before the deferred [Unlock], returning [e] *)
| Done (e : option error)        (* has returned [e] *)
| Panicked.                      (* assignment to an entry of a nil map *)

Record shared := {
  locked : bool;                 (* m.mutex *)
  registry : serviceMap.t;       (* m.services *)
  pcs : nat → pc
}.

(** One statement of goroutine [t]; a goroutine that cannot move (the
    mutex is taken, or it has returned) leaves the state as it is. *)
Definition exec (svcs : nat → service.t) (t : nat) (σ : shared) : shared :=
  let s := svcs t in
  match pcs σ t with
  | AtLock =>
      if locked σ then σ
      else {| locked := true; registry := registry σ; pcs := <[t := AtCheck]> (pcs σ) |}
  | AtCheck =>
      match serviceMap.services (registry σ) with
      | None =>
          {| locked := locked σ; registry := {| serviceMap.services := Some ∅ |};
             pcs := <[t := AtInsert]> (pcs σ) |}
      | Some r =>
          if bool_decide (is_Some (r !! service.name s))
          then {| locked := locked σ; registry := registry σ;
                  pcs := <[t := AtUnlock (Some (Errorf_already_defined (service.name s)))]>
                           (pcs σ) |}
          else {| locked := locked σ; registry := registry σ; pcs := <[t := AtInsert]> (pcs σ) |}
      end
  | AtInsert =>
      match serviceMap.services (registry σ) with
      | None => {| locked := locked σ; registry := registry σ; pcs := <[t := Panicked]> (pcs σ) |}
      | Some r =>
          {| locked := locked σ;
             registry := {| serviceMap.services := Some (<[service.name s := s]> r) |};
             pcs := <[t := AtUnlock None]> (pcs σ) |}
      end
  | AtUnlock e => {| locked := false; registry := registry σ; pcs := <[t := Done e]> (pcs σ) |}
  | Done _ | Panicked => σ
  end.

(** The state after the goroutines have moved in the order [schedule]. *)
Definition run (svcs : nat → service.t) (schedule : list nat) (σ : shared) : shared :=
  foldl (λ σ t, exec svcs t σ) σ schedule.

(** Every goroutine about to take the mutex. *)
Definition start (r : serviceMap.t) : shared :=
  {| locked := false; registry := r; pcs := λ _, AtLock |}.

(** ** Codecs, hooks and the server *)

(** A [CodecRequest] as the dispatcher sees it: what each of its calls
    answers.  An error of a codec is known by its [Error()] text.
    [WriteErrorResponse] answers nothing; its calls are recorded below. *)
Module CodecRequest.
Record t := {
  Method : string + string;
  ReadRequest : reflect.Type_ → Payload + string;
  WriteResponse : Payload → option string
}.
End CodecRequest.

(** A codec, a non-nil value of the interface: the request it makes for
    an HTTP request. *)
Module Codec.
Record t := { NewRequest : Request → CodecRequest.t }.
End Codec.

Module RequestInfo.
Record t := {
  Method : string;
  Error : option error;
  Request : Request;
  StatusCode : Z
}.
End RequestInfo.

Module Server.
Record t := {
  codecs : gmap string Codec.t;
  defaultCodec : Codec.t;
  services : serviceMap.t;
  interceptFunc : option (RequestInfo.t → option Request);
  beforeFunc : option (RequestInfo.t → unit);
  afterFunc : option (RequestInfo.t → unit);
  supportedMethods : gset string
}.
End Server.

Definition StatusOK : Z := 200.
Definition StatusMethodNotAllowed : Z := 405.
Definition StatusUnsupportedMediaType : Z := 415.
Definition MethodPost : string := "POST".

(** What [ServeHTTP] does to the world, in order: its calls on the
    response writer, on the codec request, on the hooks and on the service
    method. *)
Inductive Event :=
| WriteHeader (status : Z)
| HeaderSet (key value : string)
| CodecMethod (c : CodecRequest.t)
| CodecReadRequest (c : CodecRequest.t) (t : reflect.Type_)
| CodecWriteResponse (c : CodecRequest.t) (reply : Payload)
| CodecWriteErrorResponse (c : CodecRequest.t) (err : error)
| Intercept (i : RequestInfo.t)
| Before (i : RequestInfo.t)
| After (i : RequestInfo.t)
| Call (f : Method) (rcvr : reflect.Value) (req : option Request) (args : Payload).

(** A handler step: the events it caused, and its value unless the
    handler has returned. *)
Definition Handler (A : Type) : Type := list Event * option A.

Definition pure {A} (a : A) : Handler A := ([], Some a).
Definition emit (e : Event) : Handler unit := ([e], Some ()).
Definition return_ {A} : Handler A := ([], None).
Definition bind {A B} (h : Handler A) (k : A → Handler B) : Handler B :=
  match h with
  | (tr, Some a) => let '(tr', b) := k a in ((tr ++ tr')%list, b)
  | (tr, None) => (tr, None)
  end.

Declare Scope handler_scope.
Delimit Scope handler_scope with handler.
Notation "x <- h ;; k" := (bind h (λ x, k))
  (at level 100, h at next level, right associativity) : handler_scope.
Notation "h ;;; k" := (bind h (λ _, k))
  (at level 100, right associativity) : handler_scope.

Definition trace {A} (h : Handler A) : list Event := h.1.
(** The handler ran to its last statement. *)
Definition completed {A} (h : Handler A) : bool := bool_decide (is_Some h.2).

Section Dispatcher.
Context `{GoText} `{TypeInfo}.
Open Scope handler_scope.

(** Line 41. *)
Definition NewServer (defaultCodec : Codec.t) : Server.t :=
  {| Server.codecs := ∅;
     Server.defaultCodec := defaultCodec;
     Server.services := {| serviceMap.services := None |};
     Server.interceptFunc := None;
     Server.beforeFunc := None;
     Server.afterFunc := None;
     Server.supportedMethods := {[ MethodPost ]} |}.

(** Line 76. *)
Definition RegisterCodec (s : Server.t) (codec : Codec.t) (contentType : string) : Server.t :=
  {| Server.codecs := <[ToLower contentType := codec]> (Server.codecs s);
     Server.defaultCodec := Server.defaultCodec s;
     Server.services := Server.services s;
     Server.interceptFunc := Server.interceptFunc s;
     Server.beforeFunc := Server.beforeFunc s;
     Server.afterFunc := Server.afterFunc s;
     Server.supportedMethods := Server.supportedMethods s |}.

(** The server after a call on [s.services]. *)
Definition withServices (s : Server.t) (m : serviceMap.t) : Server.t :=
  {| Server.codecs := Server.codecs s;
     Server.defaultCodec := Server.defaultCodec s;
     Server.services := m;
     Server.interceptFunc := Server.interceptFunc s;
     Server.beforeFunc := Server.beforeFunc s;
     Server.afterFunc := Server.afterFunc s;
     Server.supportedMethods := Server.supportedMethods s |}.

(** Lines 96 and 117. *)
Definition RegisterService (s : Server.t) (receiver : option reflect.Value) (name : string)
  : Server.t * outcome (option error) :=
  let '(m, e) := register (Server.services s) receiver name true in (withServices s m, e).

Definition RegisterTCPService (s : Server.t) (receiver : option reflect.Value) (name : string)
  : Server.t * outcome (option error) :=
  let '(m, e) := register (Server.services s) receiver name false in (withServices s m, e).

(** Line 124. *)
Definition HasMethod (s : Server.t) (method : string) : bool :=
  match get (Server.services s) method with inl _ => true | inr _ => false end.

(** Lines 137, 146 and 155: each hook slot holds the last function set. *)
Definition RegisterInterceptFunc (s : Server.t) (f : RequestInfo.t → option Request) : Server.t :=
  {| Server.codecs := Server.codecs s;
     Server.defaultCodec := Server.defaultCodec s;
     Server.services := Server.services s;
     Server.interceptFunc := Some f;
     Server.beforeFunc := Server.beforeFunc s;
     Server.afterFunc := Server.afterFunc s;
     Server.supportedMethods := Server.supportedMethods s |}.

Definition RegisterBeforeFunc (s : Server.t) (f : RequestInfo.t → unit) : Server.t :=
  {| Server.codecs := Server.codecs s;
     Server.defaultCodec := Server.defaultCodec s;
     Server.services := Server.services s;
     Server.interceptFunc := Server.interceptFunc s;
     Server.beforeFunc := Some f;
     Server.afterFunc := Server.afterFunc s;
     Server.supportedMethods := Server.supportedMethods s |}.

Definition RegisterAfterFunc (s : Server.t) (f : RequestInfo.t → unit) : Server.t :=
  {| Server.codecs := Server.codecs s;
     Server.defaultCodec := Server.defaultCodec s;
     Server.services := Server.services s;
     Server.interceptFunc := Server.interceptFunc s;
     Server.beforeFunc := Server.beforeFunc s;
     Server.afterFunc := Some f;
     Server.supportedMethods := Server.supportedMethods s |}.

(** Line 159. *)
Definition AddSupportedHTTPMethod (s : Server.t) (method : string) : Server.t :=
  {| Server.codecs := Server.codecs s;
     Server.defaultCodec := Server.defaultCodec s;
     Server.services := Server.services s;
     Server.interceptFunc := Server.interceptFunc s;
     Server.beforeFunc := Server.beforeFunc s;
     Server.afterFunc := Server.afterFunc s;
     Server.supportedMethods := {[ method ]} ∪ Server.supportedMethods s |}.

(** Line 272. *)
Definition handleErrorResponse (status : Z) (codecReq : CodecRequest.t) (err : error)
  : Handler unit :=
  emit (WriteHeader status) ;;;
  emit (CodecWriteErrorResponse codecReq err).

(** Lines 171-175: the Content-Type without its parameters. *)
Definition mediaType (r : Request) : string :=
  let contentType := reqContentType r in
  let idx := Index contentType ";" in
  if bool_decide (idx ≠ -1) then slice_to contentType (Z.to_nat idx) else contentType.

(** Lines 176-183: the codec chosen for a media type, [None] for the nil
    codec.  With one codec registered the [range] loop leaves it in
    [codec]. *)
Definition selectCodec (s : Server.t) (contentType : string) : option Codec.t :=
  if bool_decide (contentType = "") && bool_decide (size (Server.codecs s) = 1%nat)
  then last (map_to_list (Server.codecs s)).*2
  else Server.codecs s !! ToLower contentType.

(** [Server.ServeHTTP], line 164. *)
Definition ServeHTTP (s : Server.t) (r : Request) : Handler unit :=
  (if bool_decide (reqMethod r ∉ Server.supportedMethods s) then
     handleErrorResponse StatusMethodNotAllowed (Codec.NewRequest (Server.defaultCodec s) r)
       (RpcHTTPMethodNotAllowedError (reqMethod r)) ;;;
     return_
   else pure ()) ;;;
  let contentType := mediaType r in
  codec <- match selectCodec s contentType with
           | None =>
               handleErrorResponse StatusUnsupportedMediaType
                 (Codec.NewRequest (Server.defaultCodec s) r)
                 (RpcHTTPUnsupportedMediaTypeError contentType) ;;;
               return_
           | Some codec => pure codec
           end ;;
  let codecReq := Codec.NewRequest codec r in
  emit (CodecMethod codecReq) ;;;
  method <- match CodecRequest.Method codecReq with
            | inr errMethod =>
                handleErrorResponse StatusOK codecReq (RpcCodecRequestMethodError errMethod) ;;;
                return_
            | inl method => pure method
            end ;;
  found <- match get (Server.services s) method with
           | inr errGet => handleErrorResponse StatusOK codecReq errGet ;;; return_
           | inl found => pure found
           end ;;
  let '(serviceSpec, methodSpec) := found in
  emit (CodecReadRequest codecReq (serviceMethod.argsType methodSpec)) ;;;
  args <- match CodecRequest.ReadRequest codecReq (serviceMethod.argsType methodSpec) with
          | inr errRead =>
              handleErrorResponse StatusOK codecReq (RpcCodecReadRequestError errRead) ;;;
              return_
          | inl args => pure args
          end ;;
  r <- match Server.interceptFunc s with
       | Some f =>
           let i := {| RequestInfo.Request := r; RequestInfo.Method := method;
                       RequestInfo.Error := None; RequestInfo.StatusCode := 0 |} in
           emit (Intercept i) ;;;
           pure (match f i with Some req => req | None => r end)
       | None => pure r
       end ;;
  match Server.beforeFunc s with
  | Some f =>
      emit (Before {| RequestInfo.Request := r; RequestInfo.Method := method;
                      RequestInfo.Error := None; RequestInfo.StatusCode := 0 |})
  | None => pure ()
  end ;;;
  let req := if service.passReq serviceSpec then Some r else None in
  emit (Call (serviceMethod.method methodSpec) (service.rcvr serviceSpec) req args) ;;;
  let '(reply, errInter) := Func (serviceMethod.method methodSpec) (service.rcvr serviceSpec) req args in
  match errInter with
  | Some err => handleErrorResponse StatusOK codecReq err ;;; return_
  | None => pure ()
  end ;;;
  emit (HeaderSet "x-content-type-options" "nosniff") ;;;
  emit (CodecWriteResponse codecReq reply) ;;;
  match CodecRequest.WriteResponse codecReq reply with
  | Some errWrite =>
      handleErrorResponse StatusOK codecReq (RpcCodecWriteResponseError errWrite) ;;;
      return_
  | None => pure ()
  end ;;;
  match Server.afterFunc s with
  | Some f =>
      emit (After {| RequestInfo.Request := r; RequestInfo.Method := method;
                     RequestInfo.Error := None; RequestInfo.StatusCode := 200 |})
  | None => pure ()
  end.

End Dispatcher.

(** ** A small program to run the definitions on *)

Module Demo.

(** The three library functions on ASCII text, where they agree with
    Go's: the first byte as the rune, A-Z as the upper-case letters,
    A-Z mapped to a-z. *)
Definition RuneError : Z := 65533.

Definition decodeRune (s : string) : Z * Z :=
  match s with
  | EmptyString => (RuneError, 0)
  | String c _ =>
      let b := Z.of_N (N_of_ascii c) in
      if bool_decide (b < 128) then (b, 1) else (RuneError, 1)
  end.

Definition isUpper (r : Z) : bool := bool_decide (65 ≤ r ≤ 90).

Definition lowerByte (c : ascii) : ascii :=
  let b := N_of_ascii c in
  if bool_decide (65 ≤ b ≤ 90)%N then ascii_of_N (b + 32) else c.

Fixpoint toLower (s : string) : string :=
  match s with
  | EmptyString => EmptyString
  | String c s' => String (lowerByte c) (toLower s')
  end.

Definition text : GoText :=
  {| DecodeRuneInString := decodeRune; IsUpper := isUpper; ToLower := toLower |}.

(** Types of a program: an exported service type [Calc] with its
    payloads, and an unexported one, [calc]. *)
Definition Calc : reflect.Type_ := reflect.Other reflect.Struct "Calc" "main".
Definition calc : reflect.Type_ := reflect.Other reflect.Struct "calc" "main".
Definition Args : reflect.Type_ := reflect.Other reflect.Struct "Args" "main".
Definition Reply : reflect.Type_ := reflect.Other reflect.Struct "Reply" "main".
Definition hidden : reflect.Type_ := reflect.Other reflect.Struct "hidden" "main".
Definition int : reflect.Type_ := reflect.Other reflect.Int "int" "".
Definition ptr (t : reflect.Type_) : reflect.Type_ := reflect.PtrTo "" "" t.

(** [func (c *Calc) Add(r *http.Request, a *Args, reply *Reply) error],
    which fails on the argument ["overflow"]. *)
Definition add (rcvr : reflect.Type_) : Method :=
  {| Name := "Add"; PkgPath := "";
     Typ := {| reflect.ins := [rcvr; ptr typeOfRequest; ptr Args; ptr Reply];
               reflect.outs := [typeOfError] |};
     Func := λ _ _ args,
       if bool_decide (args = "overflow") then ("", Some (ErrorValue "overflow"))
       else ("sum of " +:+ args, None) |}.

(** [func (c *Calc) Sub(a *Args, reply *Reply) error]: no request. *)
Definition sub (rcvr : reflect.Type_) : Method :=
  {| Name := "Sub"; PkgPath := "";
     Typ := {| reflect.ins := [rcvr; ptr Args; ptr Reply];
               reflect.outs := [typeOfError] |};
     Func := λ _ _ args, ("difference of " +:+ args, None) |}.

(** [func (c *Calc) Peek(r *http.Request, a *hidden, reply *Reply) error]:
    the argument type is not exported. *)
Definition peek (rcvr : reflect.Type_) : Method :=
  {| Name := "Peek"; PkgPath := "";
     Typ := {| reflect.ins := [rcvr; ptr typeOfRequest; ptr hidden; ptr Reply];
               reflect.outs := [typeOfError] |};
     Func := λ _ _ _, ("", None) |}.

(** [*Calc] has the three methods, [*calc] has [Add], and [*Peeker], an
    exported type, has [Peek] only. *)
Definition Peeker : reflect.Type_ := reflect.Other reflect.Struct "Peeker" "main".

Definition types : TypeInfo :=
  {| Methods := λ t,
       if bool_decide (t = ptr Calc) then [add t; peek t; sub t]
       else if bool_decide (t = ptr calc) then [add t]
       else if bool_decide (t = ptr Peeker) then [peek t]
       else [] |}.

Definition aPeeker : reflect.Value :=
  {| reflect.typ := ptr Peeker; reflect.isNil := false; reflect.addr := 4 |}.

Definition aCalc : reflect.Value :=
  {| reflect.typ := ptr Calc; reflect.isNil := false; reflect.addr := 1 |}.
Definition a_calc : reflect.Value :=
  {| reflect.typ := ptr calc; reflect.isNil := false; reflect.addr := 2 |}.
Definition anInt : reflect.Value :=
  {| reflect.typ := int; reflect.isNil := false; reflect.addr := 3 |}.

Definition empty : serviceMap.t := {| serviceMap.services := None |}.

(** A codec whose requests name the method given, decode to the given
    arguments, and encode every reply unless [failWrite]. *)
Definition codec (method : string + string) (args : Payload + string) (failWrite : bool)
  : Codec.t :=
  {| Codec.NewRequest := λ _,
       {| CodecRequest.Method := method;
          CodecRequest.ReadRequest := λ _, args;
          CodecRequest.WriteResponse :=
            λ _, if failWrite then Some "write failed" else None |} |}.

Definition post (contentType : string) : Request :=
  {| reqAddr := 10; reqMethod := "POST"; reqContentType := contentType |}.

Definition getRequest (contentType : string) : Request :=
  {| reqAddr := 12; reqMethod := "GET"; reqContentType := contentType |}.

End Demo.

(** * Properties *)

(** ** Splitting and searching strings *)

Section Strings.
Implicit Types (s a b : string) (sep c : ascii).

(** [sep] does not occur in [s]. *)
Definition free_of sep s : Prop := Index s sep = -1.

#[global] Instance free_of_dec sep s : Decision (free_of sep s).
Proof. unfold free_of. apply _. Defined.

Lemma Index_lower sep s : -1 ≤ Index s sep.
Proof.
  induction s as [|c s IH]; simpl; [lia|].
  repeat case_decide; lia.
Qed.

Lemma free_of_cons sep c s : free_of sep (String c s) ↔ c ≠ sep ∧ free_of sep s.
Proof.
  unfold free_of. simpl. pose proof (Index_lower sep s).
  repeat case_decide; split; intros; try lia; try tauto; intuition lia.
Qed.

Lemma Split_free sep s : free_of sep s → Split s sep = [s].
Proof.
  induction s as [|c s IH]; [done|].
  intros [Hc Hs]%free_of_cons. simpl.
  rewrite decide_False by done. by rewrite IH.
Qed.

Lemma Split_app sep a s :
  free_of sep a → Split (a +:+ String sep s) sep = a :: Split s sep.
Proof.
  induction a as [|c a IH]; simpl.
  - intros _. by rewrite decide_True.
  - intros [Hc Ha]%free_of_cons.
    rewrite decide_False by done. by rewrite IH.
Qed.

Lemma Split_nonempty sep s : Split s sep ≠ [].
Proof.
  destruct s as [|c s]; simpl; [done|].
  case_decide; [done|]. by destruct (Split s sep).
Qed.

(** The pieces determine the string. *)
Lemma Split_cons_inv sep s a rest :
  Split s sep = a :: rest →
  free_of sep a ∧
  match rest with
  | [] => s = a
  | _ => ∃ s', s = a +:+ String sep s' ∧ Split s' sep = rest
  end.
Proof.
  revert a rest. induction s as [|c s IH]; simpl; intros a rest.
  - intros [= <- <-]. done.
  - case_decide as Hc.
    + intros [= <- <-]. split; [done|].
      pose proof (Split_nonempty sep s).
      destruct (Split s sep) eqn:E; [done|]. subst. eauto.
    + destruct (Split s sep) as [|p ps] eqn:E; [by destruct (Split_nonempty sep s)|].
      intros [= <- <-]. destruct (IH _ _ eq_refl) as [Hp Hrest].
      split; [by apply free_of_cons|].
      destruct ps; [by subst|].
      destruct Hrest as (s' & -> & Hs'). eauto.
Qed.

(** A string has two pieces exactly when it is two [sep]-free strings
    around one separator. *)
Lemma Split_two sep s a b :
  Split s sep = [a; b] ↔ free_of sep a ∧ free_of sep b ∧ s = a +:+ String sep b.
Proof.
  split.
  - intros Hs. destruct (Split_cons_inv _ _ _ _ Hs) as (Ha & s' & -> & Hs').
    destruct (Split_cons_inv _ _ _ _ Hs') as (Hb & ->). done.
  - intros (Ha & Hb & ->). rewrite Split_app by done. by rewrite Split_free.
Qed.

Lemma Split_length_two sep s :
  length (Split s sep) = 2%nat ↔
  ∃ a b, free_of sep a ∧ free_of sep b ∧ s = a +:+ String sep b.
Proof.
  split.
  - destruct (Split s sep) as [|a [|b [|]]] eqn:E; try done.
    intros _. exists a, b. by apply Split_two.
  - intros (a & b & Hab). apply Split_two in Hab. by rewrite Hab.
Qed.

End Strings.

(** ** Resolving a dotted method name: [serviceMap.get] *)

(** [a.b] *)
Definition dotted (a b : string) : string := a +:+ String "." b.

(** [s] is two components around a single dot. *)
Definition two_components (s : string) : Prop :=
  ∃ a b, free_of "." a ∧ free_of "." b ∧ s = dotted a b.

(** [s] is two non-empty components around a single dot. *)
Definition two_nonempty_components (s : string) : Prop :=
  ∃ a b, a ≠ "" ∧ b ≠ "" ∧ free_of "." a ∧ free_of "." b ∧ s = dotted a b.

(** What a well-formed name resolves to: the look-up of the service, then
    of the method in its table. *)
Definition lookup_both (m : serviceMap.t) (method a b : string)
  : (service.t * serviceMethod.t) + error :=
  match index (serviceMap.services m) a with
  | None => inr (RpcServiceNotFoundError method)
  | Some svc =>
      match service.methods svc !! b with
      | None => inr (RpcMethodNotFoundError method)
      | Some sm => inl (svc, sm)
      end
  end.

Lemma lookup_both_not_malformed m method a b :
  lookup_both m method a b ≠ inr (RpcMethodMalformedError method).
Proof.
  unfold lookup_both. destruct (index _ a) as [svc|]; [|done].
  by destruct (service.methods svc !! b).
Qed.

Lemma get_dotted m a b :
  free_of "." a → free_of "." b →
  get m (dotted a b) = lookup_both m (dotted a b) a b.
Proof.
  intros Ha Hb. unfold get, lookup_both.
  assert (Split (dotted a b) "." = [a; b]) as -> by by apply Split_two.
  done.
Qed.

Lemma get_malformed m method :
  ¬ two_components method → get m method = inr (RpcMethodMalformedError method).
Proof.
  intros Hno. unfold get. rewrite bool_decide_true; [done|].
  intros Hlen. by apply Hno, Split_length_two.
Qed.

(** C2, as the code has it: [get] fails with the malformed-name error
    exactly when the name is not two components around a single dot; the
    components may be empty.  When the name is [a.b], also with [a] or
    [b] empty, [get] fails with the service-not-found error if no service
    is registered under [a], with the method-not-found error if that
    service has no method [b], and returns the service and the method
    otherwise. *)
Theorem C2_get_resolution (m : serviceMap.t) (method : string) :
  (get m method = inr (RpcMethodMalformedError method) ↔ ¬ two_components method)
  ∧ (∀ a b, free_of "." a → free_of "." b → method = dotted a b →
       get m method =
         match index (serviceMap.services m) a with
         | None => inr (RpcServiceNotFoundError method)
         | Some svc =>
             match service.methods svc !! b with
             | None => inr (RpcMethodNotFoundError method)
             | Some sm => inl (svc, sm)
             end
         end).
Proof.
  split.
  - split; [|apply get_malformed].
    intros Hget (a & b & Ha & Hb & ->).
    rewrite get_dotted in Hget by done.
    by apply lookup_both_not_malformed in Hget.
  - intros a b Ha Hb ->. by apply get_dotted.
Qed.

(** C2 as stated fails: ["Calc."] is not two non-empty components, and
    [get] does not answer that it is malformed; the empty method name is
    looked up like any other. *)
Lemma C2_empty_component_counterexample :
  ¬ two_nonempty_components "Calc."
  ∧ get Demo.empty "Calc." = inr (RpcServiceNotFoundError "Calc.")
  ∧ ¬ (∀ m method, ¬ two_nonempty_components method →
         get m method = inr (RpcMethodMalformedError method)).
Proof.
  assert (¬ two_nonempty_components "Calc.") as Hno.
  { intros (a & b & _ & Hb & Ha & Hb' & Heq).
    assert (Split "Calc." "." = [a; b]) as Hsplit by by apply Split_two.
    vm_compute in Hsplit. by injection Hsplit as <- <-. }
  split; [done|]. split; [reflexivity|].
  intros Hall. specialize (Hall Demo.empty "Calc." Hno). by vm_compute in Hall.
Qed.

(** ** The method table built by [register] *)

Section MethodTable.
Context `{GoText} `{TypeInfo}.
Implicit Types (m : Method) (ms : list Method) (sm : serviceMethod.t)
  (tbl : gmap string serviceMethod.t) (t : reflect.Type_).

(** The parameters of a method, receiver excluded. *)
Definition params m : list reflect.Type_ := drop 1 (reflect.ins (Typ m)).

(** A pointer to the inbound-request type. *)
Definition pointer_to_request t : Prop :=
  reflect.Kind t = reflect.Ptr ∧ reflect.Elem t = Some typeOfRequest.

(** The payload type a pointer leads to is publicly visible (its name is
    exported) or built in (it belongs to no package). *)
Definition visible_or_builtin t : Prop :=
  isExported (reflect.Name t) = true ∨ reflect.PkgPath t = "".

Definition pointer_to_payload t : Prop :=
  reflect.Kind t = reflect.Ptr ∧ visible_or_builtin (underPointers t).

(** The shape contract of the specification. *)
Definition shape_ok (requiresRequestParam : bool) m : Prop :=
  match requiresRequestParam, params m with
  | true, [req; args; reply] =>
      pointer_to_request req ∧ pointer_to_payload args ∧ pointer_to_payload reply
  | false, [args; reply] => pointer_to_payload args ∧ pointer_to_payload reply
  | _, _ => False
  end
  ∧ reflect.outs (Typ m) = [typeOfError].

(** The entry [register] stores for a method it keeps. *)
Definition entry_of (requiresRequestParam : bool) m sm : Prop :=
  serviceMethod.method sm = m
  ∧ ∃ args reply,
      params m !! (if requiresRequestParam then 1 else 0)%nat = Some args
      ∧ params m !! (if requiresRequestParam then 2 else 1)%nat = Some reply
      ∧ reflect.Elem args = Some (serviceMethod.argsType sm)
      ∧ reflect.Elem reply = Some (serviceMethod.replyType sm).

Lemma isExportedOrBuiltin_spec t :
  isExportedOrBuiltin t = true ↔ visible_or_builtin (underPointers t).
Proof.
  unfold isExportedOrBuiltin, visible_or_builtin.
  rewrite orb_true_iff, bool_decide_eq_true. done.
Qed.

Lemma Kind_Ptr_inv t :
  reflect.Kind t = reflect.Ptr → ∃ n p e, t = reflect.PtrTo n p e.
Proof. destruct t; [eauto|done]. Qed.

Lemma check_pointer_payload t :
  bool_decide (reflect.Kind t ≠ reflect.Ptr) || negb (isExportedOrBuiltin t) = false ↔
  pointer_to_payload t.
Proof.
  unfold pointer_to_payload. rewrite <- isExportedOrBuiltin_spec.
  rewrite orb_false_iff, negb_false_iff, bool_decide_eq_false.
  split; intros [? ?]; split; [by apply dec_stable|done|by intros ?|done].
Qed.

Lemma check_pointer_request t :
  bool_decide (reflect.Kind t ≠ reflect.Ptr)
  || bool_decide (reflect.Elem t ≠ Some typeOfRequest) = false ↔
  pointer_to_request t.
Proof.
  unfold pointer_to_request.
  rewrite orb_false_iff, !bool_decide_eq_false.
  split; intros [? ?]; split; try by apply dec_stable. all: by intros ?.
Qed.

(** [candidate] keeps a method exactly when every test of the loop body
    passes, and stores the pointed-to types. *)
Lemma candidate_code passReq m sm :
  candidate passReq m = Some sm ↔
  let off := if passReq then 1 else 0 in
  let args := reflect.In (Typ m) (1 + off) in
  let reply := reflect.In (Typ m) (2 + off) in
  PkgPath m = "" ∧ reflect.NumIn (Typ m) = 3 + off
  ∧ (passReq = true → pointer_to_request (reflect.In (Typ m) 1))
  ∧ pointer_to_payload args ∧ pointer_to_payload reply
  ∧ reflect.NumOut (Typ m) = 1 ∧ reflect.Out (Typ m) 0 = typeOfError
  ∧ serviceMethod.method sm = m
  ∧ reflect.Elem args = Some (serviceMethod.argsType sm)
  ∧ reflect.Elem reply = Some (serviceMethod.replyType sm).
Proof.
  unfold candidate. cbv zeta.
  set (off := if passReq then 1 else 0).
  set (args := reflect.In (Typ m) (1 + off)).
  set (reply := reflect.In (Typ m) (2 + off)).
  set (req := reflect.In (Typ m) 1).
  destruct (bool_decide (PkgPath m ≠ "")) eqn:Hpkg.
  { apply bool_decide_eq_true in Hpkg. split; [done|]. by intros (? & _). }
  apply bool_decide_eq_false, dec_stable in Hpkg.
  destruct (bool_decide (reflect.NumIn (Typ m) ≠ 3 + off)) eqn:Hin.
  { apply bool_decide_eq_true in Hin. split; [done|]. by intros (_ & ? & _). }
  apply bool_decide_eq_false, dec_stable in Hin.
  destruct (passReq && _) eqn:Hreq.
  { apply andb_true_iff in Hreq as [-> Hreq].
    split; [done|]. intros (_ & _ & Hr & _).
    apply check_pointer_request in Hr; [|done]. congruence. }
  assert (passReq = true → pointer_to_request req) as Hreq'.
  { intros ->. by apply check_pointer_request. }
  clear Hreq.
  destruct (bool_decide (reflect.Kind args ≠ reflect.Ptr) || _) eqn:Hargs.
  { split; [done|]. intros (_ & _ & _ & Ha & _).
    apply check_pointer_payload in Ha. congruence. }
  apply check_pointer_payload in Hargs.
  destruct (bool_decide (reflect.Kind reply ≠ reflect.Ptr) || _) eqn:Hreply.
  { split; [done|]. intros (_ & _ & _ & _ & Hr & _).
    apply check_pointer_payload in Hr. congruence. }
  apply check_pointer_payload in Hreply.
  destruct (bool_decide (reflect.NumOut (Typ m) ≠ 1)) eqn:Hout.
  { apply bool_decide_eq_true in Hout. split; [done|].
    by intros (_ & _ & _ & _ & _ & ? & _). }
  apply bool_decide_eq_false, dec_stable in Hout.
  destruct (bool_decide (reflect.Out (Typ m) 0 ≠ typeOfError)) eqn:Herr.
  { apply bool_decide_eq_true in Herr. split; [done|].
    by intros (_ & _ & _ & _ & _ & _ & ? & _). }
  apply bool_decide_eq_false, dec_stable in Herr.
  destruct (Kind_Ptr_inv _ (proj1 Hargs)) as (na & pa & ea & Ha).
  destruct (Kind_Ptr_inv _ (proj1 Hreply)) as (nr & pr & er & Hr).
  rewrite Ha, Hr in *. simpl.
  split.
  - by intros [= <-].
  - intros (_ & _ & _ & _ & _ & _ & _ & Hm & [= Hat] & [= Hrt]).
    destruct sm; simpl in *. by subst.
Qed.

Lemma outs_error (o : list reflect.Type_) :
  Z.of_nat (length o) = 1 ∧ o !!! Z.to_nat 0 = typeOfError ↔ o = [typeOfError].
Proof.
  destruct o as [|e [|e' o]]; simpl; split; try (intros [? ?]; lia); try done.
  - by intros [_ ->].
  - by intros [= ->].
Qed.

(** The loop body implements the shape contract. *)
Lemma candidate_spec passReq m sm :
  candidate passReq m = Some sm ↔
  PkgPath m = "" ∧ shape_ok passReq m ∧ entry_of passReq m sm.
Proof.
  rewrite candidate_code.
  unfold shape_ok, entry_of, params, reflect.NumIn, reflect.NumOut,
    reflect.In, reflect.Out.
  destruct m as [nm pk [i o] f]; cbn [Typ PkgPath reflect.ins reflect.outs].
  rewrite <- (outs_error o).
  destruct passReq; cbv zeta.
  - destruct i as [|t0 [|t1 [|t2 [|t3 [|t4 i]]]]]; simpl;
      try (split; [intros (_ & ? & _); lia | intros (_ & [[] _] & _)]).
    split.
    + intros (? & _ & Hr & Ha & Hp & Ho & He & ? & ? & ?).
      specialize (Hr eq_refl). split_and!; try done. by exists t2, t3.
    + intros (? & [(? & ? & ?) [? ?]] & ? & a & r & [= <-] & [= <-] & ? & ?).
      split_and!; done.
  - destruct i as [|t0 [|t1 [|t2 [|t3 i]]]]; simpl;
      try (split; [intros (_ & ? & _); lia | intros (_ & [[] _] & _)]).
    split.
    + intros (? & _ & Hr & Ha & Hp & Ho & He & ? & ? & ?).
      split_and!; try done. by exists t1, t2.
    + intros (? & [(? & ?) [? ?]] & ? & a & r & [= <-] & [= <-] & ? & ?).
      split_and!; done.
Qed.

(** One turn of the loop over the methods. *)
Definition keep (passReq : bool) tbl m : gmap string serviceMethod.t :=
  match candidate passReq m with
  | Some sm => <[Name m := sm]> tbl
  | None => tbl
  end.

Lemma setupMethods_foldl passReq ms : setupMethods passReq ms = foldl (keep passReq) ∅ ms.
Proof. done. Qed.

Lemma keep_lookup_ne passReq tbl m k : Name m ≠ k → keep passReq tbl m !! k = tbl !! k.
Proof.
  intros Hne. unfold keep. destruct (candidate passReq m); [|done].
  by rewrite lookup_insert_ne.
Qed.

Lemma foldl_keep_other passReq ms tbl k :
  (∀ m, m ∈ ms → Name m ≠ k) → foldl (keep passReq) tbl ms !! k = tbl !! k.
Proof.
  revert tbl. induction ms as [|m0 ms IH]; intros tbl Hk; [done|]. simpl.
  rewrite IH by (intros ??; apply Hk; by right).
  apply keep_lookup_ne, Hk. by left.
Qed.

Lemma foldl_keep_origin passReq ms tbl k sm :
  foldl (keep passReq) tbl ms !! k = Some sm →
  tbl !! k = Some sm ∨ ∃ m, m ∈ ms ∧ Name m = k ∧ candidate passReq m = Some sm.
Proof.
  revert tbl. induction ms as [|m0 ms IH]; intros tbl; simpl; [by left|].
  intros [Hk | (m & Hm & Hn & Hc)]%IH.
  - unfold keep in Hk. destruct (candidate passReq m0) as [sm0|] eqn:Hc; [|by left].
    destruct (decide (Name m0 = k)) as [<-|Hne].
    + rewrite lookup_insert_eq in Hk. injection Hk as ->.
      right. exists m0. split; [by left|done].
    + rewrite lookup_insert_ne in Hk by done. by left.
  - right. exists m. split; [by right|done].
Qed.

Lemma foldl_keep_present passReq ms tbl k :
  is_Some (tbl !! k) → is_Some (foldl (keep passReq) tbl ms !! k).
Proof.
  revert tbl. induction ms as [|m0 ms IH]; intros tbl Hk; [done|]. simpl.
  apply IH. unfold keep. destruct (candidate passReq m0); [|done].
  rewrite lookup_insert. by case_decide.
Qed.

Lemma foldl_keep_kept passReq ms tbl m sm :
  m ∈ ms → candidate passReq m = Some sm →
  is_Some (foldl (keep passReq) tbl ms !! Name m).
Proof.
  revert tbl. induction ms as [|m0 ms IH]; intros tbl Hm Hc; [by inversion Hm|].
  simpl. apply elem_of_cons in Hm as [<-|Hm]; [|by apply IH].
  apply foldl_keep_present. unfold keep. rewrite Hc, lookup_insert_eq. eauto.
Qed.

Lemma foldl_keep_NoDup passReq ms tbl m sm :
  NoDup (Name <$> ms) → m ∈ ms → candidate passReq m = Some sm →
  foldl (keep passReq) tbl ms !! Name m = Some sm.
Proof.
  revert tbl. induction ms as [|m0 ms IH]; intros tbl Hnd Hm Hc; [by inversion Hm|].
  rewrite fmap_cons in Hnd. apply NoDup_cons in Hnd as [Hfresh Hnd].
  simpl. apply elem_of_cons in Hm as [<-|Hm]; [|by apply IH].
  rewrite foldl_keep_other.
  - unfold keep. by rewrite Hc, lookup_insert_eq.
  - intros m' Hm' Heq. apply Hfresh. rewrite <- Heq. by apply list_elem_of_fmap_2.
Qed.

(** No method kept, no table. *)
Lemma setupMethods_empty passReq ms :
  setupMethods passReq ms = ∅ ↔ ∀ m, m ∈ ms → candidate passReq m = None.
Proof.
  rewrite setupMethods_foldl. split.
  - intros Hempty m Hm. destruct (candidate passReq m) as [sm|] eqn:Hc; [|done].
    destruct (foldl_keep_kept passReq ms ∅ m sm Hm Hc) as [sm' Hsm'].
    by rewrite Hempty, lookup_empty in Hsm'.
  - intros Hnone. apply map_eq. intros k. rewrite lookup_empty.
    destruct (foldl _ _ _ !! k) as [sm|] eqn:Hk; [|done].
    apply foldl_keep_origin in Hk as [Hk|(m & Hm & _ & Hc)]; [done|].
    by rewrite Hnone in Hc.
Qed.

End MethodTable.

(** ** Registration: [serviceMap.register] *)

Section Register.
Context `{GoText} `{TypeInfo}.
Implicit Types (reg : serviceMap.t) (v : reflect.Value) (n : string).

(** The service [register] sets up for a receiver. *)
Definition serviceOf v n (passReq : bool) : service.t :=
  {| service.name := n; service.rcvr := v; service.rcvrType := reflect.typ v;
     service.methods := setupMethods passReq (Methods (reflect.typ v));
     service.passReq := passReq |}.

(** The registered services, the nil map read as the empty one. *)
Definition registered reg : gmap string service.t :=
  default ∅ (serviceMap.services reg).

Lemma index_registered reg n : index (serviceMap.services reg) n = registered reg !! n.
Proof. unfold index, registered. by destruct (serviceMap.services reg). Qed.

Lemma addToMap_fresh reg s :
  registered reg !! service.name s = None →
  addToMap reg s =
    ({| serviceMap.services := Some (<[service.name s := s]> (registered reg)) |}, None).
Proof.
  unfold addToMap, registered. destruct (serviceMap.services reg) as [r|]; simpl; [|done].
  intros Hn. rewrite bool_decide_false; [done|]. rewrite Hn. by intros [? ?].
Qed.

Lemma addToMap_taken reg s :
  is_Some (registered reg !! service.name s) →
  addToMap reg s = (reg, Some (Errorf_already_defined (service.name s))).
Proof.
  unfold addToMap, registered. destruct (serviceMap.services reg) as [r|]; simpl.
  - intros Hn. by rewrite bool_decide_true.
  - rewrite lookup_empty. by intros [? ?].
Qed.

(** The three ways a registration that has a name ends. *)
Lemma register_no_methods reg v name passReq n :
  serviceName v name = Returns (inl n) →
  setupMethods passReq (Methods (reflect.typ v)) = ∅ →
  register reg (Some v) name passReq = (reg, Returns (Some (Errorf_no_methods n))).
Proof.
  intros Hn Hm. unfold register. rewrite Hn. simpl. rewrite Hm.
  by rewrite bool_decide_true.
Qed.

Lemma register_taken reg v name passReq n :
  serviceName v name = Returns (inl n) →
  setupMethods passReq (Methods (reflect.typ v)) ≠ ∅ →
  is_Some (registered reg !! n) →
  register reg (Some v) name passReq = (reg, Returns (Some (Errorf_already_defined n))).
Proof.
  intros Hn Hm Hreg. unfold register. rewrite Hn. simpl.
  rewrite bool_decide_false by by rewrite map_size_empty_iff.
  fold (serviceOf v n passReq). by rewrite addToMap_taken.
Qed.

Lemma register_fresh reg v name passReq n :
  serviceName v name = Returns (inl n) →
  setupMethods passReq (Methods (reflect.typ v)) ≠ ∅ →
  registered reg !! n = None →
  register reg (Some v) name passReq =
    ({| serviceMap.services := Some (<[n := serviceOf v n passReq]> (registered reg)) |},
     Returns None).
Proof.
  intros Hn Hm Hreg. unfold register. rewrite Hn. simpl.
  rewrite bool_decide_false by by rewrite map_size_empty_iff.
  fold (serviceOf v n passReq). by rewrite addToMap_fresh.
Qed.

(** Only a registration that returns nil changes the registry. *)
Lemma register_failure_unchanged reg rcvr name passReq reg' res :
  register reg rcvr name passReq = (reg', res) → res ≠ Returns None → reg' = reg.
Proof.
  unfold register. destruct rcvr as [v|]; [|by intros [= <- <-]].
  destruct (serviceName v name) as [[n|e]|]; try by intros [= <- <-].
  case_bool_decide; [by intros [= <- <-]|].
  unfold addToMap. destruct (serviceMap.services reg) as [r|]; simpl.
  - case_bool_decide; by intros [= <- <-].
  - by intros [= <- <-].
Qed.

(** A registration that returns nil went through all three stages. *)
Lemma register_success_inv reg v name passReq reg' :
  register reg (Some v) name passReq = (reg', Returns None) →
  ∃ n, serviceName v name = Returns (inl n)
       ∧ setupMethods passReq (Methods (reflect.typ v)) ≠ ∅
       ∧ registered reg !! n = None
       ∧ reg' = {| serviceMap.services :=
                     Some (<[n := serviceOf v n passReq]> (registered reg)) |}.
Proof.
  intros Hreg.
  destruct (serviceName v name) as [[n|e]|] eqn:Hn;
    [|unfold register in Hreg; rewrite Hn in Hreg; by simplify_eq..].
  exists n. split; [done|].
  destruct (decide (setupMethods passReq (Methods (reflect.typ v)) = ∅)) as [He|He].
  { rewrite (register_no_methods _ _ _ _ n) in Hreg by done. by simplify_eq. }
  split; [done|].
  destruct (registered reg !! n) as [s|] eqn:Hs.
  { rewrite (register_taken _ _ _ _ n) in Hreg by eauto. by simplify_eq. }
  split; [done|].
  rewrite (register_fresh _ _ _ _ n) in Hreg by done. by simplify_eq.
Qed.

(** The names [serviceName] lets through. *)
Lemma serviceName_explicit v name :
  name ≠ "" → serviceName v name = Returns (inl name).
Proof.
  intros Hne. unfold serviceName. rewrite bool_decide_false by done.
  by rewrite bool_decide_false.
Qed.

Lemma serviceName_derived v t :
  IndirectType v = Returns t →
  serviceName v "" =
    Returns (if negb (isExported (reflect.Name t))
             then inr (Errorf_not_exported (reflect.Name t))
             else if bool_decide (reflect.Name t = "")
                  then inr (Errorf_no_service_name (reflect.typ v))
                  else inl (reflect.Name t)).
Proof.
  intros Ht. unfold serviceName. rewrite bool_decide_true by done. rewrite Ht.
  destruct (isExported (reflect.Name t)); simpl; [|done].
  by case_bool_decide.
Qed.

End Register.


(** ** The registration claims *)

(** The two errors [register] returns for a bad service name. *)
Definition InvalidServiceName (e : error) : Prop :=
  (∃ n, e = Errorf_not_exported n) ∨ (∃ t, e = Errorf_no_service_name t).

Section RegistrationClaims.
Context `{GoText} `{TypeInfo}.

(** The only errors of the name checks are those two. *)
Lemma serviceName_error v name e :
  serviceName v name = Returns (inr e) → InvalidServiceName e.
Proof.
  unfold serviceName, InvalidServiceName.
  destruct (bool_decide (name = "")).
  - destruct (IndirectType v) as [t|]; [|done].
    destruct (negb (isExported (reflect.Name t))); [intros [= <-]; eauto|].
    case_bool_decide; [intros [= <-]; eauto|done].
  - case_bool_decide; [intros [= <-]; eauto|done].
Qed.
Implicit Types (reg : serviceMap.t) (v : reflect.Value) (n : string) (m : Method).

Lemma shape_ok_candidate passReq m :
  PkgPath m = "" → shape_ok passReq m → ∃ sm, candidate passReq m = Some sm.
Proof.
  intros Hpkg Hshape.
  assert (∃ args reply,
    params m !! (if passReq then 1 else 0)%nat = Some args
    ∧ params m !! (if passReq then 2 else 1)%nat = Some reply
    ∧ pointer_to_payload args ∧ pointer_to_payload reply) as (a & r & Ha & Hr & Hpa & Hpr).
  { destruct Hshape as [Hshape _]. destruct passReq.
    - destruct (params m) as [|t1 [|t2 [|t3 [|]]]]; try done.
      destruct Hshape as (_ & ? & ?). by exists t2, t3.
    - destruct (params m) as [|t1 [|t2 [|]]]; try done.
      destruct Hshape as (? & ?). by exists t1, t2. }
  destruct (Kind_Ptr_inv _ (proj1 Hpa)) as (na & pa & ea & ->).
  destruct (Kind_Ptr_inv _ (proj1 Hpr)) as (nr & pr & er & ->).
  exists {| serviceMethod.method := m; serviceMethod.argsType := ea;
            serviceMethod.replyType := er |}.
  apply candidate_spec. split; [done|]. split; [done|]. split; [done|].
  eexists _, _. split; [exact Ha|]. split; [exact Hr|]. done.
Qed.

Lemma setupMethods_nonempty passReq ms m :
  m ∈ ms → PkgPath m = "" → shape_ok passReq m → setupMethods passReq ms ≠ ∅.
Proof.
  intros Hm Hpkg Hshape Hempty.
  destruct (shape_ok_candidate passReq m Hpkg Hshape) as [sm Hsm].
  rewrite setupMethods_empty in Hempty. by rewrite (Hempty m Hm) in Hsm.
Qed.

(** C1: among the methods [ms] of a receiver type (Go gives them distinct
    names), a method [m] is in the table that [register] builds, under its
    own name, if and only if it is exported and has the shape of the
    contract: 2 parameters after the receiver, or 3 when the request is
    required, the first of which is then a pointer to the request type;
    argument and reply are pointers whose payload type, the type the
    pointers lead to, is exported or built in; and the results are exactly
    one [error].  A method that fails a condition is left out and that is
    no error: as soon as one method passes, a registration under a valid
    and free name returns nil and installs the table. *)
Theorem C1_method_table_membership (passReq : bool) (ms : list Method) (m : Method) :
  NoDup (Name <$> ms) → m ∈ ms →
  ((∃ sm, setupMethods passReq ms !! Name m = Some sm ∧ serviceMethod.method sm = m)
   ↔ PkgPath m = "" ∧ shape_ok passReq m)
  ∧ (∀ reg v name n,
       Methods (reflect.typ v) = ms →
       serviceName v name = Returns (inl n) →
       registered reg !! n = None →
       PkgPath m = "" ∧ shape_ok passReq m →
       ∃ reg' s,
         register reg (Some v) name passReq = (reg', Returns None)
         ∧ registered reg' !! n = Some s
         ∧ service.methods s = setupMethods passReq ms).
Proof.
  intros Hnd Hm. split.
  - split.
    + intros (sm & Hsm & Hmeth).
      rewrite setupMethods_foldl in Hsm.
      apply foldl_keep_origin in Hsm as [Hsm|(m' & _ & _ & Hc)]; [done|].
      apply candidate_spec in Hc as (Hpkg & Hshape & Hentry & _).
      rewrite Hmeth in Hentry. by subst m'.
    + intros [Hpkg Hshape].
      destruct (shape_ok_candidate passReq m Hpkg Hshape) as [sm Hsm].
      exists sm. split.
      * rewrite setupMethods_foldl. by apply foldl_keep_NoDup.
      * by apply candidate_spec in Hsm as (_ & _ & ? & _).
  - intros reg v name n Hms Hn Hfree [Hpkg Hshape].
    eexists _, (serviceOf v n passReq). split.
    + apply register_fresh; [done| |done].
      rewrite Hms. by apply (setupMethods_nonempty _ _ m).
    + split; [by unfold registered; simpl; rewrite lookup_insert_eq|].
      simpl. by rewrite Hms.
Qed.

(** C3, as the code has it: a non-empty explicit name is the service name
    as it is, exported or not; with an empty explicit name the service name
    is the name of the receiver's type (of the type pointed to, for a
    pointer), and registration fails with an invalid-name error whenever
    that name is empty or not exported.  A registration that returns nil
    has installed the service under that name. *)
Theorem C3_service_name reg v (name : string) (passReq : bool) :
  (name ≠ "" → serviceName v name = Returns (inl name))
  ∧ (∀ t, name = "" → IndirectType v = Returns t →
       reflect.Name t = "" ∨ isExported (reflect.Name t) = false →
       ∃ e, register reg (Some v) name passReq = (reg, Returns (Some e))
            ∧ InvalidServiceName e)
  ∧ (∀ t, name = "" → IndirectType v = Returns t →
       reflect.Name t ≠ "" → isExported (reflect.Name t) = true →
       serviceName v name = Returns (inl (reflect.Name t)))
  ∧ (∀ reg', register reg (Some v) name passReq = (reg', Returns None) →
       ∃ n, serviceName v name = Returns (inl n)
            ∧ registered reg' !! n = Some (serviceOf v n passReq)
            ∧ service.name (serviceOf v n passReq) = n).
Proof.
  split; [apply serviceName_explicit|]. split; [|split].
  - intros t -> Ht Hbad. unfold register.
    rewrite (serviceName_derived v t Ht).
    destruct (isExported (reflect.Name t)) eqn:He; simpl.
    + destruct Hbad as [Hempty|?]; [|done]. rewrite bool_decide_true by done.
      eexists. split; [done|]. right. eauto.
    + eexists. split; [done|]. left. eauto.
  - intros t -> Ht Hne He. rewrite (serviceName_derived v t Ht), He. simpl.
    by rewrite bool_decide_false.
  - intros reg' (n & Hn & _ & _ & ->)%register_success_inv.
    exists n. split; [done|]. split; [|done].
    unfold registered. simpl. by rewrite lookup_insert_eq.
Qed.

(** C7: when no method of the receiver passes the shape contract,
    registration fails and the registry is the one before; the name is
    checked first: the error is the no-suitable-methods one whenever the
    service has a valid name, and the error of the name, one of the two
    of an invalid service name, otherwise; resolving a name and
    [HasMethod] answer afterwards what they answered before. *)
Theorem C7_no_suitable_methods reg v (name : string) (passReq : bool) :
  (∀ m, m ∈ Methods (reflect.typ v) → ¬ (PkgPath m = "" ∧ shape_ok passReq m)) →
  (∃ res, register reg (Some v) name passReq = (reg, res) ∧ res ≠ Returns None)
  ∧ (∀ n, serviceName v name = Returns (inl n) →
       register reg (Some v) name passReq = (reg, Returns (Some (Errorf_no_methods n))))
  ∧ (∀ e, serviceName v name = Returns (inr e) →
       register reg (Some v) name passReq = (reg, Returns (Some e))
       ∧ InvalidServiceName e)
  ∧ (∀ srv method,
       let reg' := (register reg (Some v) name passReq).1 in
       get reg' method = get reg method
       ∧ HasMethod (withServices srv reg') method = HasMethod (withServices srv reg) method).
Proof.
  intros Hnone.
  assert (setupMethods passReq (Methods (reflect.typ v)) = ∅) as Hempty.
  { apply setupMethods_empty. intros m Hm.
    destruct (candidate passReq m) as [sm|] eqn:Hc; [|done].
    apply candidate_spec in Hc as (? & ? & _). by destruct (Hnone m Hm). }
  assert (∃ res, register reg (Some v) name passReq = (reg, res) ∧ res ≠ Returns None)
    as (res & Hreg & Hres).
  { destruct (serviceName v name) as [[n|e]|] eqn:Hn.
    - rewrite (register_no_methods _ _ _ _ n) by done. by eexists.
    - unfold register. rewrite Hn. by eexists.
    - unfold register. rewrite Hn. by eexists. }
  split; [by exists res|]. split; [|split].
  - intros n Hn. by apply register_no_methods.
  - intros e He. split; [unfold register; by rewrite He|].
    by apply (serviceName_error v name).
  - intros srv method. by rewrite Hreg.
Qed.

End RegistrationClaims.


(** ** Registrations running concurrently: what the mutex buys *)

(** The goroutine is between [Lock] and [Unlock]. *)
Definition holds (p : pc) : Prop :=
  match p with AtCheck | AtInsert | AtUnlock _ => True | _ => False end.

(** The goroutine has inserted its service. *)
Definition inserted (p : pc) : Prop :=
  match p with AtUnlock None | Done None => True | _ => False end.

(** The goroutine has found the name taken. *)
Definition refused (p : pc) (e : error) : Prop :=
  match p with AtUnlock (Some e') | Done (Some e') => e' = e | _ => False end.

(** What the mutex buys: the check and the insertion of a goroutine are not
    separated by a write of another one. *)
Record atomic_registration (svcs : nat → service.t) (r0 : serviceMap.t) (σ : shared)
  : Prop := {
  (* one goroutine at most is between Lock and Unlock, with the mutex taken *)
  holder_locked : ∀ t, holds (pcs σ t) → locked σ = true;
  holder_unique : ∀ t t', holds (pcs σ t) → holds (pcs σ t') → t = t';
  (* what a goroutine has checked still holds when it inserts *)
  insert_fresh : ∀ t, pcs σ t = AtInsert →
    ∃ r, serviceMap.services (registry σ) = Some r ∧ r !! service.name (svcs t) = None;
  (* a service inserted stays, under its name *)
  inserted_stays : ∀ t, inserted (pcs σ t) →
    index (serviceMap.services (registry σ)) (service.name (svcs t)) = Some (svcs t);
  (* a name is inserted once *)
  inserted_once : ∀ t t', inserted (pcs σ t) → inserted (pcs σ t') →
    service.name (svcs t) = service.name (svcs t') → t = t';
  (* a goroutine is refused for a name that is registered, with that error *)
  refused_taken : ∀ t e, refused (pcs σ t) e →
    e = Errorf_already_defined (service.name (svcs t))
    ∧ is_Some (index (serviceMap.services (registry σ)) (service.name (svcs t)));
  (* the services registered before are untouched, and their names are never inserted *)
  earlier_stay : ∀ n s, index (serviceMap.services r0) n = Some s →
    index (serviceMap.services (registry σ)) n = Some s;
  earlier_not_inserted : ∀ t, inserted (pcs σ t) →
    index (serviceMap.services r0) (service.name (svcs t)) = None;
  no_panic : ∀ t, pcs σ t ≠ Panicked
}.

Section Interleaving.
Context (svcs : nat → service.t) (r0 : serviceMap.t).
Implicit Types (σ : shared) (t : nat).

Lemma start_atomic : atomic_registration svcs r0 (start r0).
Proof. by split. Qed.

(** The lookups of the program counters after a goroutine has moved. *)
Ltac moved t' t :=
  destruct (decide (t = t')) as [<-|?];
  [rewrite ?fn_lookup_insert in * | rewrite ?fn_lookup_insert_ne in * by done].

Lemma exec_atomic σ t :
  atomic_registration svcs r0 σ → atomic_registration svcs r0 (exec svcs t σ).
Proof.
  intros Inv. unfold exec.
  destruct (pcs σ t) as [| | |e|e|] eqn:Hpc; [| | | |done..].
  - (* Lock *)
    destruct (locked σ) eqn:Hl; [done|].
    assert (∀ t', ¬ holds (pcs σ t')) as Hfree.
    { intros t' Ht'. apply (holder_locked _ _ _ Inv) in Ht'. congruence. }
    split; simpl.
    + done.
    + intros t1 t2 H1 H2. moved t1 t; moved t2 t; try done; by destruct (Hfree _ H1) || by destruct (Hfree _ H2).
    + intros t' Ht'. moved t' t; [done|]. by apply (insert_fresh _ _ _ Inv).
    + intros t' Ht'. moved t' t; [done|]. by apply (inserted_stays _ _ _ Inv).
    + intros t1 t2 H1 H2. moved t1 t; [done|]. moved t2 t; [done|]. by apply (inserted_once _ _ _ Inv).
    + intros t' e' Ht'. moved t' t; [done|]. by apply (refused_taken _ _ _ Inv).
    + apply (earlier_stay _ _ _ Inv).
    + intros t' Ht'. moved t' t; [done|]. by apply (earlier_not_inserted _ _ _ Inv).
    + intros t'. moved t' t; [done|]. by apply (no_panic _ _ _ Inv).
  - (* the tests of m.services *)
    assert (∀ t', holds (pcs σ t') → t = t') as Honly.
    { intros t' Ht'. apply (holder_unique _ _ _ Inv); [by rewrite Hpc|done]. }
    assert (locked σ = true) as Hl.
    { apply (holder_locked _ _ _ Inv t). by rewrite Hpc. }
    destruct (serviceMap.services (registry σ)) as [r|] eqn:Hr.
    + case_bool_decide as Htaken; split; simpl.
      * done.
      * intros t1 t2 H1 H2. moved t1 t; moved t2 t; try done;
          [by apply Honly|symmetry; by apply Honly|by apply (holder_unique _ _ _ Inv)].
      * intros t' Ht'. moved t' t; [done|]. by apply (insert_fresh _ _ _ Inv).
      * intros t' Ht'. moved t' t; [done|]. by apply (inserted_stays _ _ _ Inv).
      * intros t1 t2 H1 H2. moved t1 t; [done|]. moved t2 t; [done|].
        by apply (inserted_once _ _ _ Inv).
      * intros t' e' Ht'. moved t' t.
        -- simpl in Ht'. subst e'. by rewrite Hr.
        -- by apply (refused_taken _ _ _ Inv).
      * intros n s. by apply (earlier_stay _ _ _ Inv).
      * intros t' Ht'. moved t' t; [done|]. by apply (earlier_not_inserted _ _ _ Inv).
      * intros t'. moved t' t; [done|]. by apply (no_panic _ _ _ Inv).
      * done.
      * intros t1 t2 H1 H2. moved t1 t; moved t2 t; try done;
          [by apply Honly|symmetry; by apply Honly|by apply (holder_unique _ _ _ Inv)].
      * intros t' Ht'. moved t' t.
        -- exists r. split; [done|]. by apply eq_None_not_Some.
        -- by destruct (Honly t'); [rewrite Ht'|].
      * intros t' Ht'. moved t' t; [done|]. by apply (inserted_stays _ _ _ Inv).
      * intros t1 t2 H1 H2. moved t1 t; [done|]. moved t2 t; [done|].
        by apply (inserted_once _ _ _ Inv).
      * intros t' e' Ht'. moved t' t; [done|].
        by apply (refused_taken _ _ _ Inv).
      * intros n s. by apply (earlier_stay _ _ _ Inv).
      * intros t' Ht'. moved t' t; [done|]. by apply (earlier_not_inserted _ _ _ Inv).
      * intros t'. moved t' t; [done|]. by apply (no_panic _ _ _ Inv).
    + (* the nil map is made *)
      split; simpl.
      * done.
      * intros t1 t2 H1 H2. moved t1 t; moved t2 t; try done;
          [by apply Honly|symmetry; by apply Honly|by apply (holder_unique _ _ _ Inv)].
      * intros t' Ht'. moved t' t; [by exists ∅|].
        by destruct (Honly t'); [rewrite Ht'|].
      * intros t' Ht'. moved t' t; [done|].
        apply (inserted_stays _ _ _ Inv) in Ht'. by rewrite Hr in Ht'.
      * intros t1 t2 H1 H2. moved t1 t; [done|]. moved t2 t; [done|].
        by apply (inserted_once _ _ _ Inv).
      * intros t' e' Ht'. moved t' t; [done|].
        apply (refused_taken _ _ _ Inv) in Ht' as [_ [? Ht']]. by rewrite Hr in Ht'.
      * intros n s Hn. apply (earlier_stay _ _ _ Inv) in Hn. by rewrite Hr in Hn.
      * intros t' Ht'. moved t' t; [done|]. by apply (earlier_not_inserted _ _ _ Inv).
      * intros t'. moved t' t; [done|]. by apply (no_panic _ _ _ Inv).
  - (* the insertion *)
    assert (∀ t', holds (pcs σ t') → t = t') as Honly.
    { intros t' Ht'. apply (holder_unique _ _ _ Inv); [by rewrite Hpc|done]. }
    assert (locked σ = true) as Hl.
    { apply (holder_locked _ _ _ Inv t). by rewrite Hpc. }
    destruct (insert_fresh _ _ _ Inv t Hpc) as (r & Hr & Hfresh). rewrite Hr.
    assert (∀ n, is_Some (r !! n) → service.name (svcs t) ≠ n) as Hne.
    { intros n [s Hs] <-. congruence. }
    split; simpl.
    + done.
    + intros t1 t2 H1 H2. moved t1 t; moved t2 t; try done;
        [by apply Honly|symmetry; by apply Honly|by apply (holder_unique _ _ _ Inv)].
    + intros t' Ht'. moved t' t; [done|]. by destruct (Honly t'); [rewrite Ht'|].
    + intros t' Ht'. moved t' t; [by rewrite lookup_insert_eq|].
      apply (inserted_stays _ _ _ Inv) in Ht'. rewrite Hr in Ht'. simpl in Ht'.
      rewrite lookup_insert_ne; [done|]. apply Hne. eauto.
    + intros t1 t2 H1 H2 Hn.
      assert (∀ t', t ≠ t' → inserted (pcs σ t') →
                service.name (svcs t) ≠ service.name (svcs t')) as Hother.
      { intros t' _ Ht'. apply (inserted_stays _ _ _ Inv) in Ht'.
        rewrite Hr in Ht'. apply Hne. eauto. }
      moved t1 t; moved t2 t; try done.
      * by destruct (Hother t2).
      * by destruct (Hother t1).
      * by apply (inserted_once _ _ _ Inv).
    + intros t' e' Ht'. moved t' t; [done|].
      apply (refused_taken _ _ _ Inv) in Ht' as [-> Ht']. split; [done|].
      rewrite Hr in Ht'. simpl in *. rewrite lookup_insert_ne; [done|]. by apply Hne.
    + intros n s Hn. apply (earlier_stay _ _ _ Inv) in Hn. rewrite Hr in Hn.
      simpl in *. rewrite lookup_insert_ne; [done|]. apply Hne. eauto.
    + intros t' Ht'. moved t' t; [|by apply (earlier_not_inserted _ _ _ Inv)].
      destruct (index (serviceMap.services r0) (service.name (svcs t))) as [s|] eqn:Hs;
        [|done].
      apply (earlier_stay _ _ _ Inv) in Hs. rewrite Hr in Hs. simpl in Hs. congruence.
    + intros t'. moved t' t; [done|]. by apply (no_panic _ _ _ Inv).
  - (* Unlock *)
    assert (∀ t', holds (pcs σ t') → t = t') as Honly.
    { intros t' Ht'. apply (holder_unique _ _ _ Inv); [by rewrite Hpc|done]. }
    split; simpl.
    + intros t' Ht'. moved t' t; [done|]. by destruct (Honly t').
    + intros t1 t2 H1 H2. moved t1 t; [done|]. moved t2 t; [done|].
      by apply (holder_unique _ _ _ Inv).
    + intros t' Ht'. moved t' t; [done|]. by apply (insert_fresh _ _ _ Inv).
    + intros t' Ht'. apply (inserted_stays _ _ _ Inv).
      moved t' t; [by rewrite Hpc|done].
    + intros t1 t2 H1 H2. apply (inserted_once _ _ _ Inv).
      * moved t1 t; [by rewrite Hpc|done].
      * moved t2 t; [by rewrite Hpc|done].
    + intros t' e' Ht'. apply (refused_taken _ _ _ Inv).
      moved t' t; [by rewrite Hpc|done].
    + apply (earlier_stay _ _ _ Inv).
    + intros t' Ht'. apply (earlier_not_inserted _ _ _ Inv).
      moved t' t; [by rewrite Hpc|done].
    + intros t'. moved t' t; [done|]. by apply (no_panic _ _ _ Inv).
Qed.

Lemma run_atomic schedule σ :
  atomic_registration svcs r0 σ → atomic_registration svcs r0 (run svcs schedule σ).
Proof.
  revert σ. induction schedule as [|t schedule IH]; intros σ Inv; [done|].
  apply IH. by apply exec_atomic.
Qed.


(** Alone, a goroutine does what [addToMap] does. *)
Lemma run_alone r t :
  let σ := run svcs [t; t; t; t] (start r) in
  registry σ = (addToMap r (svcs t)).1 ∧ pcs σ t = Done (addToMap r (svcs t)).2
  ∧ locked σ = false.
Proof.
  assert (∀ schedule σ,
    run svcs (t :: schedule) σ = run svcs schedule (exec svcs t σ)) as Hcons by done.
  unfold start, addToMap. cbv zeta.
  rewrite Hcons. unfold exec. cbn [locked registry pcs].
  rewrite Hcons. unfold exec. cbn [locked registry pcs]. rewrite fn_lookup_insert.
  destruct (serviceMap.services r) as [m|] eqn:Hr.
  - case_bool_decide.
    + rewrite Hcons. unfold exec. cbn [locked registry pcs]. rewrite fn_lookup_insert.
      rewrite Hcons. unfold exec. cbn [locked registry pcs]. rewrite fn_lookup_insert.
      cbn. by rewrite fn_lookup_insert.
    + rewrite Hcons. unfold exec. cbn [locked registry pcs]. rewrite fn_lookup_insert, Hr.
      rewrite Hcons. unfold exec. cbn [locked registry pcs]. rewrite fn_lookup_insert.
      cbn. by rewrite fn_lookup_insert.
  - rewrite Hcons. unfold exec. cbn [locked registry pcs serviceMap.services].
    rewrite fn_lookup_insert.
    rewrite Hcons. unfold exec. cbn [locked registry pcs]. rewrite fn_lookup_insert.
    cbn. by rewrite fn_lookup_insert.
Qed.

End Interleaving.

Section DuplicateClaim.
Context `{GoText} `{TypeInfo}.

(** C6: a registration under a name that is registered fails, whatever
    the receiver, and leaves the registry as it was; when the second
    service is one that would register (it has a method of the contract)
    the error is the duplicate-name one.  So after a first registration a
    second one under its name fails, the first service is still the one
    registered and every name resolves as before.  The check and the
    insertion are atomic under the mutex: however registrations
    interleave, one goroutine at most is between [Lock] and [Unlock], a
    name checked free is still free at the insertion, an inserted service
    stays under its name, no name is inserted twice, and a goroutine
    alone does what the sequential code does. *)
Theorem C6_duplicate_service_name :
  (∀ reg v name passReq n,
     serviceName v name = Returns (inl n) →
     is_Some (registered reg !! n) →
     (∃ e, register reg (Some v) name passReq = (reg, Returns (Some e)))
     ∧ ((∃ m, m ∈ Methods (reflect.typ v) ∧ PkgPath m = "" ∧ shape_ok passReq m) →
        register reg (Some v) name passReq
        = (reg, Returns (Some (Errorf_already_defined n)))))
  ∧ (∀ reg v1 name1 p1 reg1 v2 name2 p2 n,
       register reg (Some v1) name1 p1 = (reg1, Returns None) →
       serviceName v1 name1 = Returns (inl n) →
       serviceName v2 name2 = Returns (inl n) →
       (∃ m, m ∈ Methods (reflect.typ v2) ∧ PkgPath m = "" ∧ shape_ok p2 m) →
       register reg1 (Some v2) name2 p2 = (reg1, Returns (Some (Errorf_already_defined n)))
       ∧ registered reg1 !! n = Some (serviceOf v1 n p1)
       ∧ ∀ method, get (register reg1 (Some v2) name2 p2).1 method = get reg1 method)
  ∧ (∀ svcs r0 schedule, atomic_registration svcs r0 (run svcs schedule (start r0)))
  ∧ (∀ svcs r t,
       registry (run svcs [t; t; t; t] (start r)) = (addToMap r (svcs t)).1
       ∧ pcs (run svcs [t; t; t; t] (start r)) t = Done (addToMap r (svcs t)).2).
Proof.
  assert (∀ reg v name passReq n,
    serviceName v name = Returns (inl n) →
    is_Some (registered reg !! n) →
    (∃ m, m ∈ Methods (reflect.typ v) ∧ PkgPath m = "" ∧ shape_ok passReq m) →
    register reg (Some v) name passReq = (reg, Returns (Some (Errorf_already_defined n))))
    as Hdup.
  { intros reg v name passReq n Hn Htaken (m & Hm & Hpkg & Hshape).
    apply register_taken; [done| |done]. by apply (setupMethods_nonempty _ _ m). }
  split; [|split; [|split]].
  - intros reg v name passReq n Hn Htaken. split; [|by apply Hdup].
    destruct (decide (setupMethods passReq (Methods (reflect.typ v)) = ∅)).
    + rewrite (register_no_methods _ _ _ _ n) by done. by eexists.
    + rewrite (register_taken _ _ _ _ n) by done. by eexists.
  - intros reg v1 name1 p1 reg1 v2 name2 p2 n Hfirst Hn1 Hn2 Hm2.
    apply register_success_inv in Hfirst as (n' & Hn' & _ & _ & ->).
    assert (n' = n) as -> by congruence.
    assert (registered {| serviceMap.services :=
                            Some (<[n := serviceOf v1 n p1]> (registered reg)) |} !! n
            = Some (serviceOf v1 n p1)) as Hthere.
    { unfold registered at 1. simpl. by rewrite lookup_insert_eq. }
    split; [apply Hdup; [done| |done]; by rewrite Hthere|].
    split; [done|].
    intros method. rewrite (Hdup _ _ _ _ n); [done|done| |done]. by rewrite Hthere.
  - intros svcs r0 schedule. apply run_atomic, start_atomic.
  - intros svcs r t. destruct (run_alone svcs r t) as (? & ? & _). done.
Qed.

End DuplicateClaim.


(** ** The request lifecycle: [Server.ServeHTTP] *)

(** The ways a request ends. *)
Inductive exit :=
| MethodNotAllowed          (* the verb is not in the allow-set *)
| UnsupportedMediaType      (* no codec for the content type *)
| MethodNameFailure         (* the codec could not give the method name *)
| ResolutionFailure         (* malformed name, unknown service or method *)
| DecodeFailure             (* the codec could not decode the arguments *)
| MethodError               (* the method returned an error *)
| EncodeFailure             (* the codec could not encode the reply *)
| Success.

(** The statuses passed to [WriteHeader], the calls of the after hook and
    the codec requests asked for an error response. *)
Definition statuses (tr : list Event) : list Z :=
  omap (λ e, match e with WriteHeader status => Some status | _ => None end) tr.

(** The status [net/http] sends: the first one passed to [WriteHeader],
    and 200 when the handler writes a body, or returns, without one. *)
Definition responseStatus (tr : list Event) : Z := default StatusOK (head (statuses tr)).

Definition afterCalls (tr : list Event) : list RequestInfo.t :=
  omap (λ e, match e with After i => Some i | _ => None end) tr.

Definition errorResponses (tr : list Event) : list (CodecRequest.t * error) :=
  omap (λ e, match e with CodecWriteErrorResponse c err => Some (c, err) | _ => None end) tr.

(** The calls on a codec request that read or answer the RPC envelope. *)
Definition envelopeCall (e : Event) : bool :=
  match e with
  | CodecMethod _ | CodecReadRequest _ _ | CodecWriteResponse _ _ => true
  | _ => false
  end.

Definition envelopeCalls (tr : list Event) : list Event := List.filter envelopeCall tr.

(** What the hooks are given before the call. *)
Definition infoBefore (method : string) (r : Request) : RequestInfo.t :=
  {| RequestInfo.Method := method; RequestInfo.Error := None;
     RequestInfo.Request := r; RequestInfo.StatusCode := 0 |}.

(** What the after hook is given. *)
Definition infoAfter (method : string) (r : Request) : RequestInfo.t :=
  {| RequestInfo.Method := method; RequestInfo.Error := None;
     RequestInfo.Request := r; RequestInfo.StatusCode := 200 |}.

(** The request after the intercept hook: its replacement if it gives
    one, the original otherwise. *)
Definition effectiveRequest (s : Server.t) (method : string) (r : Request) : Request :=
  match Server.interceptFunc s with
  | Some f => match f (infoBefore method r) with Some req => req | None => r end
  | None => r
  end.

(** The events of steps 7 to 9: the hooks registered, then the call. *)
Definition invocation (s : Server.t) (method : string) (r : Request)
    (svc : service.t) (sm : serviceMethod.t) (args : Payload) : list Event :=
  let r' := effectiveRequest s method r in
  (match Server.interceptFunc s with Some _ => [Intercept (infoBefore method r)] | None => [] end
   ++ match Server.beforeFunc s with Some _ => [Before (infoBefore method r')] | None => [] end
   ++ [Call (serviceMethod.method sm) (service.rcvr svc)
         (if service.passReq svc then Some r' else None) args])%list.

(** The result of the call of steps 9. *)
Definition invoke (s : Server.t) (method : string) (r : Request)
    (svc : service.t) (sm : serviceMethod.t) (args : Payload) : Payload * option error :=
  Func (serviceMethod.method sm) (service.rcvr svc)
    (if service.passReq svc then Some (effectiveRequest s method r) else None) args.

Section Lifecycle.
Context `{GoText} `{TypeInfo}.
Implicit Types (s : Server.t) (r : Request) (tr : list Event).

(** The lifecycle of the specification, exit by exit, with the events of
    each. *)
Inductive lifecycle s r : exit → list Event → Prop :=
| exit_verb :
    reqMethod r ∉ Server.supportedMethods s →
    lifecycle s r MethodNotAllowed
      [WriteHeader StatusMethodNotAllowed;
       CodecWriteErrorResponse (Codec.NewRequest (Server.defaultCodec s) r)
         (RpcHTTPMethodNotAllowedError (reqMethod r))]
| exit_media :
    reqMethod r ∈ Server.supportedMethods s →
    selectCodec s (mediaType r) = None →
    lifecycle s r UnsupportedMediaType
      [WriteHeader StatusUnsupportedMediaType;
       CodecWriteErrorResponse (Codec.NewRequest (Server.defaultCodec s) r)
         (RpcHTTPUnsupportedMediaTypeError (mediaType r))]
| exit_name codec text :
    reqMethod r ∈ Server.supportedMethods s →
    selectCodec s (mediaType r) = Some codec →
    let c := Codec.NewRequest codec r in
    CodecRequest.Method c = inr text →
    lifecycle s r MethodNameFailure
      [CodecMethod c; WriteHeader StatusOK;
       CodecWriteErrorResponse c (RpcCodecRequestMethodError text)]
| exit_resolve codec method err :
    reqMethod r ∈ Server.supportedMethods s →
    selectCodec s (mediaType r) = Some codec →
    let c := Codec.NewRequest codec r in
    CodecRequest.Method c = inl method →
    get (Server.services s) method = inr err →
    lifecycle s r ResolutionFailure
      [CodecMethod c; WriteHeader StatusOK; CodecWriteErrorResponse c err]
| exit_decode codec method svc sm text :
    reqMethod r ∈ Server.supportedMethods s →
    selectCodec s (mediaType r) = Some codec →
    let c := Codec.NewRequest codec r in
    CodecRequest.Method c = inl method →
    get (Server.services s) method = inl (svc, sm) →
    CodecRequest.ReadRequest c (serviceMethod.argsType sm) = inr text →
    lifecycle s r DecodeFailure
      [CodecMethod c; CodecReadRequest c (serviceMethod.argsType sm);
       WriteHeader StatusOK; CodecWriteErrorResponse c (RpcCodecReadRequestError text)]
| exit_method codec method svc sm args reply err :
    reqMethod r ∈ Server.supportedMethods s →
    selectCodec s (mediaType r) = Some codec →
    let c := Codec.NewRequest codec r in
    CodecRequest.Method c = inl method →
    get (Server.services s) method = inl (svc, sm) →
    CodecRequest.ReadRequest c (serviceMethod.argsType sm) = inl args →
    invoke s method r svc sm args = (reply, Some err) →
    lifecycle s r MethodError
      ([CodecMethod c; CodecReadRequest c (serviceMethod.argsType sm)]
       ++ invocation s method r svc sm args
       ++ [WriteHeader StatusOK; CodecWriteErrorResponse c err])%list
| exit_encode codec method svc sm args reply text :
    reqMethod r ∈ Server.supportedMethods s →
    selectCodec s (mediaType r) = Some codec →
    let c := Codec.NewRequest codec r in
    CodecRequest.Method c = inl method →
    get (Server.services s) method = inl (svc, sm) →
    CodecRequest.ReadRequest c (serviceMethod.argsType sm) = inl args →
    invoke s method r svc sm args = (reply, None) →
    CodecRequest.WriteResponse c reply = Some text →
    lifecycle s r EncodeFailure
      ([CodecMethod c; CodecReadRequest c (serviceMethod.argsType sm)]
       ++ invocation s method r svc sm args
       ++ [HeaderSet "x-content-type-options" "nosniff"; CodecWriteResponse c reply;
           WriteHeader StatusOK;
           CodecWriteErrorResponse c (RpcCodecWriteResponseError text)])%list
| exit_success codec method svc sm args reply :
    reqMethod r ∈ Server.supportedMethods s →
    selectCodec s (mediaType r) = Some codec →
    let c := Codec.NewRequest codec r in
    CodecRequest.Method c = inl method →
    get (Server.services s) method = inl (svc, sm) →
    CodecRequest.ReadRequest c (serviceMethod.argsType sm) = inl args →
    invoke s method r svc sm args = (reply, None) →
    CodecRequest.WriteResponse c reply = None →
    lifecycle s r Success
      ([CodecMethod c; CodecReadRequest c (serviceMethod.argsType sm)]
       ++ invocation s method r svc sm args
       ++ [HeaderSet "x-content-type-options" "nosniff"; CodecWriteResponse c reply]
       ++ match Server.afterFunc s with
          | Some _ => [After (infoAfter method (effectiveRequest s method r))]
          | None => []
          end)%list.

(** [ServeHTTP] runs the lifecycle: it takes one of the exits, with the
    events of that exit, and reaches its last statement on success only. *)
Lemma ServeHTTP_lifecycle s r :
  ∃ e, lifecycle s r e (trace (ServeHTTP s r))
       ∧ (completed (ServeHTTP s r) = true ↔ e = Success).
Proof.
  unfold ServeHTTP, trace, completed.
  case_bool_decide as Hverb.
  { exists MethodNotAllowed. split; [by apply exit_verb|done]. }
  destruct (selectCodec s (mediaType r)) as [codec|] eqn:Hcodec.
  2:{ exists UnsupportedMediaType. split; [by apply exit_media|done]. }
  destruct s as [codecs dflt svcs fi fb fa verbs].
  simpl.
  destruct (CodecRequest.Method (Codec.NewRequest codec r)) as [method|text] eqn:Hm.
  2:{ exists MethodNameFailure. split; [by apply (exit_name _ _ codec text)|done]. }
  simpl.
  destruct (get svcs method) as [[svc sm]|err] eqn:Hget.
  2:{ exists ResolutionFailure.
      split; [by apply (exit_resolve _ _ codec method err)|done]. }
  simpl.
  destruct (CodecRequest.ReadRequest (Codec.NewRequest codec r) (serviceMethod.argsType sm))
    as [args|text] eqn:Hread.
  2:{ exists DecodeFailure.
      split; [by apply (exit_decode _ _ codec method svc sm text)|done]. }
  pose (s := {| Server.codecs := codecs; Server.defaultCodec := dflt;
                Server.services := svcs; Server.interceptFunc := fi;
                Server.beforeFunc := fb; Server.afterFunc := fa;
                Server.supportedMethods := verbs |}).
  destruct (invoke s method r svc sm args) as [reply [err|]] eqn:Hcall.
  { exists MethodError.
    split; [|unfold invoke, effectiveRequest, infoBefore in Hcall; simpl in Hcall;
             destruct fi, fb; simpl; rewrite Hcall; done].
    pose proof (exit_method s r codec method svc sm args reply err
                  Hverb Hcodec Hm Hget Hread Hcall) as Hexit.
    unfold invoke, effectiveRequest, infoBefore in Hcall. simpl in Hcall.
    destruct fi, fb; simpl; rewrite Hcall; exact Hexit. }
  destruct (CodecRequest.WriteResponse (Codec.NewRequest codec r) reply)
    as [text|] eqn:Hwrite.
  { exists EncodeFailure.
    split; [|unfold invoke, effectiveRequest, infoBefore in Hcall; simpl in Hcall;
             destruct fi, fb; simpl; rewrite Hcall; simpl; rewrite Hwrite; done].
    pose proof (exit_encode s r codec method svc sm args reply text
                  Hverb Hcodec Hm Hget Hread Hcall Hwrite) as Hexit.
    unfold invoke, effectiveRequest, infoBefore in Hcall. simpl in Hcall.
    destruct fi, fb; simpl; rewrite Hcall; simpl; rewrite Hwrite; exact Hexit. }
  exists Success.
  split; [|unfold invoke, effectiveRequest, infoBefore in Hcall; simpl in Hcall;
           destruct fi, fb, fa; simpl; rewrite Hcall; simpl; rewrite Hwrite; done].
  pose proof (exit_success s r codec method svc sm args reply
                Hverb Hcodec Hm Hget Hread Hcall Hwrite) as Hexit.
  unfold invoke, effectiveRequest, infoBefore in Hcall. simpl in Hcall.
  destruct fi, fb, fa; simpl; rewrite Hcall; simpl; rewrite Hwrite; exact Hexit.
Qed.


(** The hooks and the call write no status, ask for no error response and
    do not call the after hook. *)
Lemma invocation_quiet s method r svc sm args :
  statuses (invocation s method r svc sm args) = []
  ∧ afterCalls (invocation s method r svc sm args) = []
  ∧ errorResponses (invocation s method r svc sm args) = []
  ∧ envelopeCalls (invocation s method r svc sm args) = [].
Proof.
  unfold invocation.
  by destruct (Server.interceptFunc s), (Server.beforeFunc s).
Qed.

(** The statuses written, exit by exit. *)
Definition statusOf (e : exit) : Z :=
  match e with
  | MethodNotAllowed => StatusMethodNotAllowed
  | UnsupportedMediaType => StatusUnsupportedMediaType
  | _ => StatusOK
  end.

Lemma statuses_app tr1 tr2 : statuses (tr1 ++ tr2)%list = (statuses tr1 ++ statuses tr2)%list.
Proof. apply omap_app. Qed.

Lemma afterCalls_app tr1 tr2 :
  afterCalls (tr1 ++ tr2)%list = (afterCalls tr1 ++ afterCalls tr2)%list.
Proof. apply omap_app. Qed.

Lemma errorResponses_app tr1 tr2 :
  errorResponses (tr1 ++ tr2)%list = (errorResponses tr1 ++ errorResponses tr2)%list.
Proof. apply omap_app. Qed.

Lemma lifecycle_statuses s r e tr :
  lifecycle s r e tr →
  statuses tr = match e with Success => [] | _ => [statusOf e] end.
Proof.
  destruct 1; try done;
    rewrite !statuses_app, (proj1 (invocation_quiet _ _ _ _ _ _)); try done.
  by destruct (Server.afterFunc s).
Qed.

Lemma lifecycle_errorResponses s r e tr :
  lifecycle s r e tr → errorResponses tr = [] ↔ e = Success.
Proof.
  destruct 1; try done;
    rewrite !errorResponses_app,
      (proj1 (proj2 (proj2 (invocation_quiet _ _ _ _ _ _)))); try done.
  by destruct (Server.afterFunc s).
Qed.

(** The exit taken is decided by the verb and by the codec chosen. *)
Lemma lifecycle_policy s r e tr :
  lifecycle s r e tr →
  (e = MethodNotAllowed ↔ reqMethod r ∉ Server.supportedMethods s)
  ∧ (e = UnsupportedMediaType ↔
     reqMethod r ∈ Server.supportedMethods s ∧ selectCodec s (mediaType r) = None).
Proof.
  destruct 1; (split; split; try done; try (by intros []); try congruence).
  all: try (intros [_ ?]; congruence).
Qed.

End Lifecycle.

Section LifecycleClaims.
Context `{GoText} `{TypeInfo}.
Implicit Types (s : Server.t) (r : Request) (tr : list Event).

(** C4: a request takes one exit of the lifecycle, and the status of the
    response is 405 on the verb exit, 415 on the media-type exit and 200
    on every other one: success, failure to extract the method name, to
    resolve it, to decode the arguments, an error of the method, failure
    to encode the reply.  No other status is ever written.  The verb exit
    is taken exactly when the verb is not in the allow-set, the media-type
    exit exactly when the verb is allowed and no codec is selected; on
    both, no call for the RPC envelope has been made on a codec. *)
Theorem C4_http_status s r :
  ∃ e, lifecycle s r e (trace (ServeHTTP s r))
       ∧ responseStatus (trace (ServeHTTP s r)) = statusOf e
       ∧ (∀ status, status ∈ statuses (trace (ServeHTTP s r)) → status = statusOf e)
       ∧ (statusOf e = StatusOK ↔ e ≠ MethodNotAllowed ∧ e ≠ UnsupportedMediaType)
       ∧ (e = MethodNotAllowed ↔ reqMethod r ∉ Server.supportedMethods s)
       ∧ (e = UnsupportedMediaType ↔
          reqMethod r ∈ Server.supportedMethods s ∧ selectCodec s (mediaType r) = None)
       ∧ (e = MethodNotAllowed ∨ e = UnsupportedMediaType →
          envelopeCalls (trace (ServeHTTP s r)) = []).
Proof.
  destruct (ServeHTTP_lifecycle s r) as (e & Hlife & _).
  exists e. split; [done|].
  pose proof (lifecycle_statuses _ _ _ _ Hlife) as Hst.
  pose proof (lifecycle_policy _ _ _ _ Hlife) as [Hverb Hmedia].
  unfold responseStatus. rewrite Hst.
  split; [by destruct e|]. split; [|split; [|split; [done|split; [done|]]]].
  - intros status. destruct e; simpl; rewrite ?list_elem_of_singleton; try done.
    by intros ?%elem_of_nil.
  - destruct e; split; try done; intros [? ?]; done.
  - intros He. inversion Hlife; subst; try done; by destruct He.
Qed.

(** C8: the after hook is called on the success exit only, once, when one
    is registered: its call is the last event, right after the reply was
    encoded without error, with no error and status 200, with the method
    name and the request the call was made with.  On every other exit,
    the encoding failure included, it is not called; those exits are the
    ones that write an error response. *)
Theorem C8_after_hook_on_success_only s r :
  ∃ e, lifecycle s r e (trace (ServeHTTP s r))
       ∧ (e ≠ Success → afterCalls (trace (ServeHTTP s r)) = [])
       ∧ (Server.afterFunc s = None → afterCalls (trace (ServeHTTP s r)) = [])
       ∧ (e = Success → is_Some (Server.afterFunc s) →
          ∃ before c reply method,
            trace (ServeHTTP s r)
            = (before ++ [CodecWriteResponse c reply;
                          After (infoAfter method (effectiveRequest s method r))])%list
            ∧ CodecRequest.WriteResponse c reply = None
            ∧ CodecRequest.Method c = inl method
            ∧ afterCalls (trace (ServeHTTP s r))
              = [infoAfter method (effectiveRequest s method r)])
       ∧ (e = Success ↔ errorResponses (trace (ServeHTTP s r)) = [])
       ∧ (e = Success ↔ completed (ServeHTTP s r) = true).
Proof.
  destruct (ServeHTTP_lifecycle s r) as (e & Hlife & Hdone).
  exists e. split; [done|].
  pose proof (lifecycle_errorResponses _ _ _ _ Hlife) as Herr.
  remember (trace (ServeHTTP s r)) as tr eqn:Htr. clear Htr.
  split; [|split; [|split; [|split; [done|done]]]].
  - intros He. destruct Hlife; try done;
      rewrite !afterCalls_app, (proj1 (proj2 (invocation_quiet _ _ _ _ _ _))); done.
  - intros Hnone. destruct Hlife; try done;
      rewrite !afterCalls_app, (proj1 (proj2 (invocation_quiet _ _ _ _ _ _))); try done.
    by rewrite Hnone.
  - intros -> [f Hf]. inversion Hlife as [| | | | | | |codec method svc sm args reply]; subst.
    rewrite Hf.
    exists ([CodecMethod c; CodecReadRequest c (serviceMethod.argsType sm)]
            ++ invocation s method r svc sm args
            ++ [HeaderSet "x-content-type-options" "nosniff"])%list, c, reply, method.
    split; [by rewrite <- !app_assoc|]. split; [done|]. split; [done|].
    rewrite !afterCalls_app, (proj1 (proj2 (invocation_quiet _ _ _ _ _ _))). done.
Qed.


(** The events of the hooks before the call, and of the call. *)
Definition hookOrCall (e : Event) : bool :=
  match e with Intercept _ | Before _ | Call _ _ _ _ => true | _ => false end.

(** Once the arguments are decoded the hooks and the call follow; no other
    hook before the call and no other call are in the trace. *)
Lemma ServeHTTP_invocation s r codec method svc sm args :
  reqMethod r ∈ Server.supportedMethods s →
  selectCodec s (mediaType r) = Some codec →
  CodecRequest.Method (Codec.NewRequest codec r) = inl method →
  get (Server.services s) method = inl (svc, sm) →
  CodecRequest.ReadRequest (Codec.NewRequest codec r) (serviceMethod.argsType sm) = inl args →
  ∃ rest,
    trace (ServeHTTP s r)
    = ([CodecMethod (Codec.NewRequest codec r);
        CodecReadRequest (Codec.NewRequest codec r) (serviceMethod.argsType sm)]
       ++ invocation s method r svc sm args ++ rest)%list
    ∧ List.filter hookOrCall rest = [].
Proof.
  intros Hverb Hcodec Hm Hget Hread.
  destruct (ServeHTTP_lifecycle s r) as (e & Hlife & _).
  remember (trace (ServeHTTP s r)) as tr eqn:Htr. clear Htr.
  destruct Hlife as [?|?|codec' ?|codec' ? ?|codec' ? ? ? ?|codec' method' svc' sm' args' ? ?
                    |codec' method' svc' sm' args' ? ?|codec' method' svc' sm' args' ?];
    try done; try congruence.
  all: assert (codec' = codec) as -> by congruence; subst c.
  all: try congruence.
  all: assert (method' = method) as -> by congruence.
  all: try congruence.
  all: assert (svc' = svc ∧ sm' = sm) as [-> ->] by (split; congruence).
  all: try congruence.
  all: assert (args' = args) as -> by congruence.
  all: eexists; split; [done|]; try done.
  by destruct (Server.afterFunc s).
Qed.

Lemma elem_of_invocation s method r svc sm args e :
  e ∈ invocation s method r svc sm args ↔
  (is_Some (Server.interceptFunc s) ∧ e = Intercept (infoBefore method r))
  ∨ (is_Some (Server.beforeFunc s)
     ∧ e = Before (infoBefore method (effectiveRequest s method r)))
  ∨ e = Call (serviceMethod.method sm) (service.rcvr svc)
          (if service.passReq svc then Some (effectiveRequest s method r) else None) args.
Proof.
  unfold invocation. rewrite !elem_of_app, list_elem_of_singleton.
  assert (∀ (A : Type) (hook : option A) (x : Event),
            e ∈ match hook with Some _ => [x] | None => [] end ↔ is_Some hook ∧ e = x)
    as Hhook.
  { intros A [f|] x.
    - rewrite list_elem_of_singleton. split; [by split|by intros [_ ?]].
    - rewrite elem_of_nil. split; [done|]. by intros [[? ?] _]. }
  by rewrite !Hhook.
Qed.

(** C9: once the arguments are decoded, the before hook (when one is
    registered) and the method (when the service takes the request) are
    given the same request: the one the intercept hook returned, if a hook
    is registered and returned one, and the original request otherwise.
    The intercept hook itself is given the original. *)
Theorem C9_intercepted_request s r codec method svc sm args :
  reqMethod r ∈ Server.supportedMethods s →
  selectCodec s (mediaType r) = Some codec →
  CodecRequest.Method (Codec.NewRequest codec r) = inl method →
  get (Server.services s) method = inl (svc, sm) →
  CodecRequest.ReadRequest (Codec.NewRequest codec r) (serviceMethod.argsType sm) = inl args →
  let r' := effectiveRequest s method r in
  let tr := trace (ServeHTTP s r) in
  (∀ f req, Server.interceptFunc s = Some f → f (infoBefore method r) = Some req → r' = req)
  ∧ (∀ f, Server.interceptFunc s = Some f → f (infoBefore method r) = None → r' = r)
  ∧ (Server.interceptFunc s = None → r' = r)
  ∧ (is_Some (Server.beforeFunc s) → Before (infoBefore method r') ∈ tr)
  ∧ (∀ i, Before i ∈ tr → i = infoBefore method r')
  ∧ (∀ i, Intercept i ∈ tr → i = infoBefore method r)
  ∧ Call (serviceMethod.method sm) (service.rcvr svc)
      (if service.passReq svc then Some r' else None) args ∈ tr
  ∧ (∀ f v q a, Call f v q a ∈ tr → q = if service.passReq svc then Some r' else None).
Proof.
  intros Hverb Hcodec Hm Hget Hread r' tr.
  destruct (ServeHTTP_invocation s r codec method svc sm args) as (rest & Htr & Hrest);
    try done.
  assert (∀ e, e ∈ rest → hookOrCall e = false) as Hquiet.
  { intros e He. destruct (hookOrCall e) eqn:Hhc; [|done].
    assert (e ∈ List.filter hookOrCall rest) as Hin.
    { apply list_elem_of_In, filter_In. split; [by apply list_elem_of_In|done]. }
    rewrite Hrest in Hin. by apply elem_of_nil in Hin. }
  assert (∀ e, hookOrCall e = true → e ∈ tr →
            e ∈ invocation s method r svc sm args) as Hinv.
  { intros e He. subst tr. rewrite Htr, !elem_of_app, !elem_of_cons.
    intros [[->|[->|?%elem_of_nil]]|[?|Hr]]; try done.
    apply Hquiet in Hr. congruence. }
  assert (∀ e, e ∈ invocation s method r svc sm args → e ∈ tr) as Hsub.
  { intros e He. subst tr. rewrite Htr, !elem_of_app. auto. }
  split; [|split; [|split; [|split; [|split; [|split; [|split]]]]]].
  - intros f req Hf Hreq. subst r'. unfold effectiveRequest. by rewrite Hf, Hreq.
  - intros f Hf Hreq. subst r'. unfold effectiveRequest. by rewrite Hf, Hreq.
  - intros Hf. subst r'. unfold effectiveRequest. by rewrite Hf.
  - intros Hb. apply Hsub, elem_of_invocation. right. left. done.
  - intros i Hi. apply Hinv, elem_of_invocation in Hi; [|done].
    destruct Hi as [[_ ?]|[[_ ?]|?]]; try done. by simplify_eq.
  - intros i Hi. apply Hinv, elem_of_invocation in Hi; [|done].
    destruct Hi as [[_ ?]|[[_ ?]|?]]; try done. by simplify_eq.
  - apply Hsub, elem_of_invocation. right. right. done.
  - intros f v q a Hc. apply Hinv, elem_of_invocation in Hc; [|done].
    destruct Hc as [[_ ?]|[[_ ?]|?]]; try done. by simplify_eq.
Qed.


(** C10: on the verb exit and on the media-type exit the error response
    is asked of the codec request that the default codec, the one given to
    [NewServer], makes for the request, and of no other: the trace is the
    status followed by that one call, whatever the Content-Type and
    whatever codecs are registered. *)
Theorem C10_policy_errors_use_default_codec s r :
  reqMethod r ∉ Server.supportedMethods s
  ∨ (reqMethod r ∈ Server.supportedMethods s ∧ selectCodec s (mediaType r) = None) →
  (∃ status err,
     trace (ServeHTTP s r)
     = [WriteHeader status;
        CodecWriteErrorResponse (Codec.NewRequest (Server.defaultCodec s) r) err]
     ∧ (status = StatusMethodNotAllowed
          ∧ err = RpcHTTPMethodNotAllowedError (reqMethod r)
          ∧ reqMethod r ∉ Server.supportedMethods s
        ∨ status = StatusUnsupportedMediaType
          ∧ err = RpcHTTPUnsupportedMediaTypeError (mediaType r)
          ∧ reqMethod r ∈ Server.supportedMethods s))
  ∧ (∀ c err, (c, err) ∈ errorResponses (trace (ServeHTTP s r)) →
       c = Codec.NewRequest (Server.defaultCodec s) r)
  ∧ (∀ dflt, Server.defaultCodec (NewServer dflt) = dflt)
  ∧ (∀ codec contentType,
       Server.defaultCodec (RegisterCodec s codec contentType) = Server.defaultCodec s).
Proof.
  intros Hpolicy.
  destruct (ServeHTTP_lifecycle s r) as (e & Hlife & _).
  remember (trace (ServeHTTP s r)) as tr eqn:Htr. clear Htr.
  assert (e = MethodNotAllowed ∨ e = UnsupportedMediaType) as He.
  { destruct (lifecycle_policy _ _ _ _ Hlife) as [Hv Hm].
    destruct Hpolicy as [?|?]; [left; by apply Hv|right; by apply Hm]. }
  split; [|split; [|done]].
  - destruct Hlife; try (by destruct He); eexists _, _; (split; [done|]); [left|right]; done.
  - intros c err. destruct Hlife; try (by destruct He); simpl;
      rewrite list_elem_of_singleton; by intros [= -> _].
Qed.

End LifecycleClaims.

(** ** Choosing the codec *)

Section CodecSelection.
Context `{GoText}.
Implicit Types (s : Server.t) (r : Request).

Lemma Index_app sep (a b : string) :
  free_of sep a → Index (a +:+ String sep b) sep = Z.of_nat (String.length a).
Proof.
  induction a as [|c a IH]; simpl.
  - intros _. by rewrite decide_True.
  - intros [Hc Ha]%free_of_cons. rewrite decide_False by done.
    rewrite IH by done. case_decide; lia.
Qed.

Lemma slice_to_app (a b : string) : slice_to (a +:+ b) (String.length a) = a.
Proof. induction a as [|c a IH]; simpl; [by destruct b|by rewrite IH]. Qed.

(** The parameters after the first semicolon are dropped. *)
Lemma mediaType_parameters r ct parameters :
  free_of ";" ct → reqContentType r = ct +:+ String ";" parameters → mediaType r = ct.
Proof.
  intros Hfree Hct. unfold mediaType. rewrite Hct, Index_app by done.
  rewrite bool_decide_true by lia. by rewrite Nat2Z.id, slice_to_app.
Qed.

Lemma mediaType_plain r : free_of ";" (reqContentType r) → mediaType r = reqContentType r.
Proof.
  unfold free_of, mediaType. intros ->.
  rewrite bool_decide_false; [done|]. by intros ?.
Qed.

Lemma map_size_one {A} (m : gmap string A) :
  size m = 1%nat → ∃ k x, m = {[k := x]}.
Proof.
  rewrite <- length_map_to_list. intros Hlen.
  destruct (map_to_list m) as [|[k x] [|? ?]] eqn:Hm; try done.
  exists k, x. by rewrite <- (list_to_map_to_list m), Hm.
Qed.

Lemma selectCodec_single s :
  size (Server.codecs s) = 1%nat →
  ∃ k codec, Server.codecs s = {[k := codec]} ∧ selectCodec s "" = Some codec.
Proof.
  intros Hsize. destruct (map_size_one _ Hsize) as (k & codec & Hk).
  exists k, codec. split; [done|]. unfold selectCodec.
  rewrite !bool_decide_true by done. simpl.
  by rewrite Hk, map_to_list_singleton.
Qed.

Lemma selectCodec_lookup s contentType :
  contentType ≠ "" ∨ size (Server.codecs s) ≠ 1%nat →
  selectCodec s contentType = Server.codecs s !! ToLower contentType.
Proof.
  intros Hcase. unfold selectCodec.
  destruct Hcase; [by rewrite bool_decide_false|].
  rewrite (bool_decide_false (size _ = _)) by done. by rewrite andb_false_r.
Qed.

End CodecSelection.

Section CodecClaim.
Context `{GoText} `{TypeInfo}.
Implicit Types (s : Server.t) (r : Request).

(** C5, as the code has it.  The media type is the Content-Type up to
    its first semicolon.  When it is empty and exactly one codec is
    registered, that codec is selected.  In every other case the
    lower-cased media type is looked up in the registry, the empty one like
    any other: with an empty media type and zero, two or more codecs the
    selection fails unless a codec is registered under the lower-cased
    empty string, which is then selected.  A failed selection is the
    media-type exit, status 415.  A Content-Type with parameters selects
    what the same Content-Type without them selects. *)
Theorem C5_codec_selection s r :
  (mediaType r = "" → size (Server.codecs s) = 1%nat →
     ∃ k codec, Server.codecs s = {[k := codec]}
                ∧ selectCodec s (mediaType r) = Some codec)
  ∧ (mediaType r = "" → size (Server.codecs s) ≠ 1%nat →
     selectCodec s (mediaType r) = Server.codecs s !! ToLower "")
  ∧ (mediaType r ≠ "" →
     selectCodec s (mediaType r) = Server.codecs s !! ToLower (mediaType r))
  ∧ (reqMethod r ∈ Server.supportedMethods s →
     selectCodec s (mediaType r) = None →
     responseStatus (trace (ServeHTTP s r)) = StatusUnsupportedMediaType
     ∧ errorResponses (trace (ServeHTTP s r))
       = [(Codec.NewRequest (Server.defaultCodec s) r,
           RpcHTTPUnsupportedMediaTypeError (mediaType r))])
  ∧ (∀ ct parameters,
       free_of ";" ct → reqContentType r = ct +:+ String ";" parameters →
       mediaType r = ct)
  ∧ (free_of ";" (reqContentType r) → mediaType r = reqContentType r)
  ∧ (∀ r' parameters,
       free_of ";" (reqContentType r') →
       reqContentType r = reqContentType r' +:+ String ";" parameters →
       selectCodec s (mediaType r) = selectCodec s (mediaType r')).
Proof.
  split; [|split; [|split; [|split; [|split; [|split]]]]].
  - intros -> Hsize. by apply selectCodec_single.
  - intros -> Hsize. apply selectCodec_lookup. by right.
  - intros Hne. apply selectCodec_lookup. by left.
  - intros Hverb Hnone.
    destruct (ServeHTTP_lifecycle s r) as (e & Hlife & _).
    remember (trace (ServeHTTP s r)) as tr eqn:Htr. clear Htr.
    destruct Hlife; try done; congruence.
  - intros ct parameters. apply mediaType_parameters.
  - apply mediaType_plain.
  - intros r' parameters Hfree Hct.
    by rewrite (mediaType_parameters r _ _ Hfree Hct), (mediaType_plain r' Hfree).
Qed.

End CodecClaim.

(** * The claims on the small program *)

Module Run.
Import Demo.
#[local] Existing Instance text.
#[local] Existing Instance types.

(** The registry after [RegisterService(new(Calc), "")]. *)
Definition withCalc : serviceMap.t := (register empty (Some aCalc) "" true).1.

(** A server with a JSON-like codec that names [Calc.Add], and a default
    codec that is another one. *)
Definition dflt : Codec.t := codec (inr "no method") (inr "no arguments") true.
Definition json : Codec.t := codec (inl "Calc.Add") (inl "2,3") false.
Definition xml : Codec.t := codec (inl "Calc.Add") (inl "<a>2</a><b>3</b>") false.

Definition server : Server.t :=
  RegisterCodec (withServices (NewServer dflt) withCalc) json "application/json".

(** The same with hooks: the intercept hook replaces the request. *)
Definition replacement : Request :=
  {| reqAddr := 11; reqMethod := "POST"; reqContentType := "application/json" |}.

Definition hooked : Server.t :=
  RegisterAfterFunc
    (RegisterBeforeFunc (RegisterInterceptFunc server (λ _, Some replacement)) (λ _, ()))
    (λ _, ()).

(** A server with two codecs, one of them under the empty content type. *)
Definition twoCodecs : Server.t :=
  RegisterCodec (RegisterCodec (NewServer dflt) xml "") json "application/json".

End Run.

Example register_Calc :
  (@register Demo.text Demo.types Demo.empty (Some Demo.aCalc) "" true).2 = Returns None
  ∧ (λ s, (map_to_list (service.methods s)).*1) <$> registered Run.withCalc !! "Calc"
    = Some ["Add"].
Proof. split; reflexivity. Qed.

Example serve_Calc_Add :
  trace (@ServeHTTP Demo.text Run.server (Demo.post "application/json; charset=utf-8"))
  = [CodecMethod (Codec.NewRequest Run.json (Demo.post "application/json; charset=utf-8"));
     CodecReadRequest (Codec.NewRequest Run.json (Demo.post "application/json; charset=utf-8"))
       Demo.Args;
     Call (Demo.add (Demo.ptr Demo.Calc)) Demo.aCalc
       (Some (Demo.post "application/json; charset=utf-8")) "2,3";
     HeaderSet "x-content-type-options" "nosniff";
     CodecWriteResponse (Codec.NewRequest Run.json (Demo.post "application/json; charset=utf-8"))
       "sum of 2,3"].
Proof. reflexivity. Qed.

Section Witnesses.
#[local] Existing Instance Demo.text.
#[local] Existing Instance Demo.types.
Import Demo Run.

(** The method returns an error: status 200, the method's error in the
    error response, and the after hook is not called. *)
Example serve_method_error :
  let s := RegisterAfterFunc
             (RegisterCodec (withServices (NewServer dflt) withCalc)
                (codec (inl "Calc.Add") (inl "overflow") false) "application/json")
             (λ _, ()) in
  let tr := trace (ServeHTTP s (post "application/json")) in
  statuses tr = [200] ∧ (errorResponses tr).*2 = [ErrorValue "overflow"]
  ∧ afterCalls tr = [].
Proof. vm_compute. repeat split. Qed.

(** The reply cannot be encoded: status 200, and no after hook either. *)
Example serve_encode_failure :
  let s := RegisterAfterFunc
             (RegisterCodec (withServices (NewServer dflt) withCalc)
                (codec (inl "Calc.Add") (inl "2,3") true) "application/json")
             (λ _, ()) in
  let tr := trace (ServeHTTP s (post "application/json")) in
  statuses tr = [200]
  ∧ (errorResponses tr).*2 = [RpcCodecWriteResponseError "write failed"]
  ∧ afterCalls tr = [].
Proof. vm_compute. repeat split. Qed.

(** With the three hooks the after hook is called once, with the request
    the intercept hook returned. *)
Example serve_hooked :
  afterCalls (trace (ServeHTTP hooked (post "application/json")))
  = [infoAfter "Calc.Add" replacement].
Proof. reflexivity. Qed.

(** Two codecs under their content types and no Content-Type: 415, and
    nothing of the lifecycle has run. *)
Example serve_no_content_type :
  let s := RegisterCodec (RegisterCodec (withServices (NewServer dflt) withCalc)
                            json "application/json") xml "text/xml" in
  trace (ServeHTTP s (post ""))
  = [WriteHeader 415;
     CodecWriteErrorResponse (Codec.NewRequest dflt (post ""))
       (RpcHTTPUnsupportedMediaTypeError "")].
Proof. vm_compute. reflexivity. Qed.

Lemma add_shape_ok : PkgPath (add (ptr Calc)) = "" ∧ shape_ok true (add (ptr Calc)).
Proof.
  split; [reflexivity|]. split; [|reflexivity].
  split; [by split|]. split; (split; [reflexivity|left; reflexivity]).
Defined.

Lemma POST_supported s :
  Server.supportedMethods s = {[ MethodPost ]} → "POST" ∈ Server.supportedMethods s.
Proof. intros ->. by apply elem_of_singleton. Defined.

(** [Add] is in the table of [*Calc], whose method [Peek] is left out. *)
Lemma C1_method_table_membership_witness :
  NoDup (Name <$> Methods (ptr Calc))
  ∧ add (ptr Calc) ∈ Methods (ptr Calc)
  ∧ (∃ sm, setupMethods true (Methods (ptr Calc)) !! "Add" = Some sm
           ∧ serviceMethod.method sm = add (ptr Calc))
  ∧ ∃ reg' s, register empty (Some aCalc) "" true = (reg', Returns None)
              ∧ registered reg' !! "Calc" = Some s
              ∧ service.methods s = setupMethods true (Methods (ptr Calc)).
Proof.
  assert (NoDup (Name <$> Methods (ptr Calc))) as Hnd.
  { apply (bool_decide_unpack _). vm_compute. exact I. }
  assert (add (ptr Calc) ∈ Methods (ptr Calc)) as Hin by apply list_elem_of_here.
  split; [exact Hnd|]. split; [exact Hin|].
  destruct (C1_method_table_membership true (Methods (ptr Calc)) (add (ptr Calc)) Hnd Hin)
    as [Hiff Hreg].
  split; [apply Hiff, add_shape_ok|].
  apply (Hreg empty aCalc "" "Calc"); [reflexivity..|apply add_shape_ok].
Defined.

Lemma C2_get_resolution_witness :
  free_of "." "Calc" ∧ free_of "." "Add"
  ∧ is_Some (index (serviceMap.services withCalc) "Calc")
  ∧ (∃ found, get withCalc "Calc.Add" = inl found)
  ∧ get withCalc "Calc.Sub" = inr (RpcMethodNotFoundError "Calc.Sub")
  ∧ get withCalc "calc.Add" = inr (RpcServiceNotFoundError "calc.Add")
  ∧ get withCalc "CalcAdd" = inr (RpcMethodMalformedError "CalcAdd").
Proof.
  split; [reflexivity|]. split; [reflexivity|]. split; [by eexists|].
  destruct (C2_get_resolution withCalc "Calc.Add") as [_ Hadd].
  destruct (C2_get_resolution withCalc "Calc.Sub") as [_ Hsub].
  destruct (C2_get_resolution withCalc "calc.Add") as [_ Hcalc].
  destruct (C2_get_resolution withCalc "CalcAdd") as [Hbad _].
  split; [|split; [|split]].
  - eexists. rewrite (Hadd "Calc" "Add"); reflexivity.
  - rewrite (Hsub "Calc" "Sub"); reflexivity.
  - rewrite (Hcalc "calc" "Add"); reflexivity.
  - apply Hbad. intros (a & b & Ha & Hb & Heq).
    assert (Split "CalcAdd" "." = [a; b]) as Hsplit by by apply Split_two.
    discriminate Hsplit.
Defined.

(** C3 as stated fails: the explicit name ["calc"] is not exported, and
    the registration under it returns nil and installs the service. *)
Lemma C3_explicit_name_counterexample :
  isExported "calc" = false
  ∧ (register empty (Some a_calc) "calc" true).2 = Returns None
  ∧ is_Some (registered (register empty (Some a_calc) "calc" true).1 !! "calc")
  ∧ ¬ (∀ reg v name passReq,
         name ≠ "" → isExported name = false →
         ∃ e, (register reg (Some v) name passReq).2 = Returns (Some e)
              ∧ InvalidServiceName e).
Proof.
  split; [reflexivity|]. split; [reflexivity|]. split; [by eexists|].
  intros Hall.
  destruct (Hall empty a_calc "calc" true) as (e & He & _); [discriminate|reflexivity|].
  vm_compute in He. discriminate He.
Qed.

Lemma C3_service_name_witness :
  IndirectType a_calc = Returns calc ∧ isExported (reflect.Name calc) = false
  ∧ (∃ e, register empty (Some a_calc) "" true = (empty, Returns (Some e))
          ∧ InvalidServiceName e)
  ∧ IndirectType aCalc = Returns Calc
  ∧ serviceName aCalc "" = Returns (inl "Calc")
  ∧ serviceName a_calc "calc" = Returns (inl "calc").
Proof.
  destruct (C3_service_name empty a_calc "" true) as (_ & Hfail & _).
  destruct (C3_service_name empty aCalc "" true) as (_ & _ & Hok & _).
  destruct (C3_service_name empty a_calc "calc" true) as (Hexplicit & _).
  split; [reflexivity|]. split; [reflexivity|].
  split; [apply (Hfail calc); [reflexivity..|right; reflexivity]|].
  split; [reflexivity|].
  split; [apply (Hok Calc); [reflexivity|reflexivity|discriminate|reflexivity]|].
  apply Hexplicit. discriminate.
Defined.

(** C5 as stated fails: with two codecs registered, one of them under the
    empty content type, a request without Content-Type selects that one
    and is not answered 415. *)
Lemma C5_empty_type_counterexample :
  size (Server.codecs twoCodecs) = 2%nat
  ∧ mediaType (post "") = ""
  ∧ selectCodec twoCodecs (mediaType (post "")) = Some xml
  ∧ responseStatus (trace (ServeHTTP twoCodecs (post ""))) = StatusOK
  ∧ ¬ (∀ s r, mediaType r = "" → (2 ≤ size (Server.codecs s))%nat →
         selectCodec s (mediaType r) = None).
Proof.
  split; [vm_compute; reflexivity|]. split; [reflexivity|].
  split; [vm_compute; reflexivity|]. split; [vm_compute; reflexivity|].
  intros Hall. specialize (Hall twoCodecs (post "") eq_refl).
  assert (2 ≤ size (Server.codecs twoCodecs))%nat as Hsize by (vm_compute; lia).
  specialize (Hall Hsize). vm_compute in Hall. discriminate Hall.
Qed.

Lemma C5_codec_selection_witness :
  mediaType (post "") = "" ∧ size (Server.codecs server) = 1%nat
  ∧ selectCodec server (mediaType (post "")) = Some json
  ∧ free_of ";" "application/json"
  ∧ mediaType (post "application/json; charset=utf-8") = "application/json"
  ∧ selectCodec server (mediaType (post "application/json; charset=utf-8"))
    = selectCodec server (mediaType (post "application/json"))
  ∧ selectCodec server (mediaType (post "text/xml")) = None
  ∧ responseStatus (trace (ServeHTTP server (post "text/xml"))) = StatusUnsupportedMediaType.
Proof.
  assert (size (Server.codecs server) = 1%nat) as Hsize by (vm_compute; reflexivity).
  assert (selectCodec server (mediaType (post "text/xml")) = None) as Hnone
    by (vm_compute; reflexivity).
  destruct (C5_codec_selection server (post "")) as (Hone & _).
  destruct (C5_codec_selection server (post "application/json; charset=utf-8"))
    as (_ & _ & _ & _ & Hstrip & _ & Hsame).
  destruct (C5_codec_selection server (post "text/xml")) as (_ & _ & _ & H415 & _).
  split; [reflexivity|]. split; [exact Hsize|]. split.
  { destruct (Hone eq_refl Hsize) as (k & c & Hk & ->).
    assert (Server.codecs server !! "application/json" = Some json) as Hj
      by (vm_compute; reflexivity).
    rewrite Hk in Hj. apply lookup_singleton_Some in Hj as [_ ->]. reflexivity. }
  split; [reflexivity|].
  split; [apply (Hstrip "application/json" " charset=utf-8"); reflexivity|].
  split; [apply (Hsame (post "application/json") " charset=utf-8"); reflexivity|].
  split; [exact Hnone|].
  apply H415; [apply POST_supported; reflexivity|exact Hnone].
Defined.

Lemma C6_duplicate_service_name_witness :
  serviceName aCalc "" = Returns (inl "Calc")
  ∧ is_Some (registered withCalc !! "Calc")
  ∧ register withCalc (Some aCalc) "" true
    = (withCalc, Returns (Some (Errorf_already_defined "Calc")))
  ∧ (∀ method, get (register withCalc (Some aCalc) "" true).1 method = get withCalc method).
Proof.
  destruct C6_duplicate_service_name as (Hdup & Htwice & _).
  assert (is_Some (registered withCalc !! "Calc")) as Hthere by (by eexists).
  split; [reflexivity|]. split; [exact Hthere|].
  split.
  - apply (Hdup withCalc aCalc "" true "Calc"); [reflexivity|exact Hthere|].
    exists (add (ptr Calc)). split; [apply list_elem_of_here|apply add_shape_ok].
  - apply (Htwice empty aCalc "" true withCalc aCalc "" true "Calc");
      [vm_compute; reflexivity|reflexivity|reflexivity|].
    exists (add (ptr Calc)). split; [apply list_elem_of_here|apply add_shape_ok].
Defined.

Lemma C7_no_suitable_methods_witness :
  (∀ m, m ∈ Methods (reflect.typ aPeeker) → ¬ (PkgPath m = "" ∧ shape_ok true m))
  ∧ serviceName aPeeker "" = Returns (inl "Peeker")
  ∧ register withCalc (Some aPeeker) "" true
    = (withCalc, Returns (Some (Errorf_no_methods "Peeker")))
  ∧ get (register withCalc (Some aPeeker) "" true).1 "Peeker.Peek" = get withCalc "Peeker.Peek".
Proof.
  assert (∀ m, m ∈ Methods (reflect.typ aPeeker) → ¬ (PkgPath m = "" ∧ shape_ok true m))
    as Hnone.
  { intros m Hm. apply list_elem_of_singleton in Hm. subst m.
    intros [_ [(_ & [_ [Hv|Hv]] & _) _]]; discriminate Hv. }
  destruct (C7_no_suitable_methods withCalc aPeeker "" true Hnone) as (_ & Herr & _ & Hsame).
  split; [exact Hnone|]. split; [reflexivity|].
  split; [apply Herr; reflexivity|].
  apply (Hsame server "Peeker.Peek").
Defined.

(** C7 as stated fails: [int] has no method at all, and registering a
    value of it without a name fails on the name, checked first, not for
    the lack of suitable methods. *)
Lemma C7_name_checked_first_counterexample :
  (∀ passReq m, m ∈ Methods (reflect.typ anInt) → ¬ (PkgPath m = "" ∧ shape_ok passReq m))
  ∧ register empty (Some anInt) "" true
    = (empty, Returns (Some (Errorf_not_exported "int")))
  ∧ ¬ (∀ reg v name passReq,
         (∀ m, m ∈ Methods (reflect.typ v) → ¬ (PkgPath m = "" ∧ shape_ok passReq m)) →
         ∃ n, (register reg (Some v) name passReq).2
              = Returns (Some (Errorf_no_methods n))).
Proof.
  assert (∀ passReq m, m ∈ Methods (reflect.typ anInt) →
                       ¬ (PkgPath m = "" ∧ shape_ok passReq m)) as Hnone.
  { intros passReq m Hm. by apply elem_of_nil in Hm. }
  split; [exact Hnone|]. split; [reflexivity|].
  intros Hall. destruct (Hall empty anInt "" true (Hnone true)) as (n & Hn).
  vm_compute in Hn. discriminate Hn.
Qed.

Lemma C9_intercepted_request_witness :
  "POST" ∈ Server.supportedMethods hooked
  ∧ selectCodec hooked (mediaType (post "application/json")) = Some json
  ∧ Before (infoBefore "Calc.Add" replacement) ∈ trace (ServeHTTP hooked (post "application/json"))
  ∧ Call (add (ptr Calc)) aCalc (Some replacement) "2,3"
    ∈ trace (ServeHTTP hooked (post "application/json"))
  ∧ replacement ≠ post "application/json".
Proof.
  assert ("POST" ∈ Server.supportedMethods hooked) as Hverb
    by (apply POST_supported; reflexivity).
  assert (selectCodec hooked (mediaType (post "application/json")) = Some json) as Hcodec
    by (vm_compute; reflexivity).
  assert (∃ svc sm, get (Server.services hooked) "Calc.Add" = inl (svc, sm)
                    ∧ serviceMethod.method sm = add (ptr Calc)
                    ∧ serviceMethod.argsType sm = Args
                    ∧ service.rcvr svc = aCalc ∧ service.passReq svc = true)
    as (svc & sm & Hget & Hm & Ha & Hr & Hp).
  { eexists _, _. split; [vm_compute; reflexivity|]. repeat split. }
  destruct (C9_intercepted_request hooked (post "application/json") json "Calc.Add"
              svc sm "2,3" Hverb Hcodec eq_refl Hget)
    as (Hrepl & _ & _ & Hbefore & _ & _ & Hcall & _).
  { rewrite Ha. reflexivity. }
  assert (effectiveRequest hooked "Calc.Add" (post "application/json") = replacement) as Heff.
  { eapply Hrepl; reflexivity. }
  rewrite Heff in Hbefore, Hcall. rewrite Hm, Hr, Hp in Hcall.
  split; [exact Hverb|]. split; [exact Hcodec|].
  split; [apply Hbefore; by eexists|]. split; [exact Hcall|]. discriminate.
Defined.

Lemma C10_policy_errors_use_default_codec_witness :
(reqMethod (getRequest "application/json") ∉ Server.supportedMethods server)
  ∧ trace (ServeHTTP server (getRequest "application/json"))
    = [WriteHeader 405;
       CodecWriteErrorResponse (Codec.NewRequest dflt (getRequest "application/json"))
         (RpcHTTPMethodNotAllowedError "GET")]
  ∧ selectCodec server (mediaType (getRequest "application/json")) = Some json.
Proof.
  assert (reqMethod (getRequest "application/json") ∉ Server.supportedMethods server) as Hverb.
  { assert (Server.supportedMethods server = {[ MethodPost ]}) as Hs by reflexivity.
    rewrite Hs. intros Hin. apply elem_of_singleton in Hin. discriminate Hin. }
  split; [exact Hverb|]. split; [|vm_compute; reflexivity].
  destruct (C10_policy_errors_use_default_codec server (getRequest "application/json")
              (or_introl Hverb)) as ((status & err & -> & Hcase) & _).
  destruct Hcase as [(-> & -> & _)|(_ & _ & Hin)]; [reflexivity|by destruct Hverb].
Defined.

End Witnesses.


(** * Further properties of the registry *)

Section RegistryProperties.
Context `{GoText} `{TypeInfo}.
Implicit Types (reg : serviceMap.t) (v : reflect.Value) (n : string) (m : Method).

(** What holds of every registry that [register] has built: a service is
    stored under its own name, which is not empty; its table is not empty;
    an entry is stored under the name of its method, which is exported and
    has the shape the service was registered for, and holds the types the
    argument and reply parameters point to. *)
Record registry_ok reg : Prop := {
  ok_name : ∀ k s, registered reg !! k = Some s → service.name s = k ∧ k ≠ "";
  ok_table : ∀ k s, registered reg !! k = Some s → service.methods s ≠ ∅;
  ok_entry : ∀ k s b sm,
    registered reg !! k = Some s → service.methods s !! b = Some sm →
    Name (serviceMethod.method sm) = b
    ∧ PkgPath (serviceMethod.method sm) = ""
    ∧ shape_ok (service.passReq s) (serviceMethod.method sm)
    ∧ entry_of (service.passReq s) (serviceMethod.method sm) sm
}.

Lemma serviceName_nonempty v name n : serviceName v name = Returns (inl n) → n ≠ "".
Proof.
  unfold serviceName.
  destruct (bool_decide (name = "")).
  - destruct (IndirectType v) as [t|]; [|done].
    destruct (negb (isExported (reflect.Name t))); [done|].
    case_bool_decide; [done|]. by intros [= <-].
  - case_bool_decide; [done|]. by intros [= <-].
Qed.

Lemma serviceOf_entries v n passReq b sm :
  service.methods (serviceOf v n passReq) !! b = Some sm →
  Name (serviceMethod.method sm) = b
  ∧ PkgPath (serviceMethod.method sm) = ""
  ∧ shape_ok passReq (serviceMethod.method sm)
  ∧ entry_of passReq (serviceMethod.method sm) sm.
Proof.
  simpl. rewrite setupMethods_foldl.
  intros [?|(m & _ & Hname & Hc)]%foldl_keep_origin; [done|].
  apply candidate_spec in Hc as (Hpkg & Hshape & Hentry).
  destruct Hentry as [Hm Htypes]. rewrite Hm. split_and!; try done.
Qed.

Lemma register_keeps_ok reg rcvr (name : string) (passReq : bool) :
  registry_ok reg → registry_ok (register reg rcvr name passReq).1.
Proof.
  intros Hok.
  destruct (register reg rcvr name passReq) as [reg' res] eqn:Hreg. simpl.
  assert (res = Returns None ∨ res ≠ Returns None) as [->|Hres]
    by (destruct res as [[e|]|]; [by right|by left|by right]);
    [|by rewrite (register_failure_unchanged _ _ _ _ _ _ Hreg Hres)].
  destruct rcvr as [v|]; [|by simplify_eq].
  apply register_success_inv in Hreg as (n & Hn & Hne & Hfree & ->).
  split; unfold registered; simpl.
  - intros k s. destruct (decide (n = k)) as [<-|?].
    + rewrite lookup_insert_eq. intros [= <-]. split; [done|].
      by apply (serviceName_nonempty v name).
    + rewrite lookup_insert_ne by done. apply (ok_name _ Hok).
  - intros k s. destruct (decide (n = k)) as [<-|?].
    + rewrite lookup_insert_eq. by intros [= <-].
    + rewrite lookup_insert_ne by done. apply (ok_table _ Hok).
  - intros k s b sm. destruct (decide (n = k)) as [<-|?].
    + rewrite lookup_insert_eq. intros [= <-]. apply serviceOf_entries.
    + rewrite lookup_insert_ne by done. apply (ok_entry _ Hok).
Qed.

Lemma empty_registry_ok : registry_ok {| serviceMap.services := None |}.
Proof. by split. Qed.

(** X1: the registry invariant holds of the registry of a new server and
    is kept by every call of [register], whatever it returns. *)
Theorem X1_register_keeps_registry_ok reg rcvr (name : string) (passReq : bool) :
  registry_ok {| serviceMap.services := None |}
  ∧ (registry_ok reg → registry_ok (register reg rcvr name passReq).1).
Proof. split; [apply empty_registry_ok|apply register_keeps_ok]. Qed.

(** What [get] returns, read backwards. *)
Lemma get_inl_inv reg method svc sm :
  get reg method = inl (svc, sm) →
  ∃ a b, free_of "." a ∧ free_of "." b ∧ method = dotted a b
         ∧ registered reg !! a = Some svc ∧ service.methods svc !! b = Some sm.
Proof.
  unfold get. case_bool_decide as Hlen; [done|].
  apply Split_length_two in Hlen as (a & b & Ha & Hb & ->).
  assert (Split (a +:+ String "." b) "." = [a; b]) as -> by by apply Split_two.
  simpl. rewrite index_registered.
  destruct (registered reg !! a) as [s|] eqn:Hs; [|done].
  destruct (service.methods s !! b) as [sm'|] eqn:Hsm; [|done].
  intros [= -> ->]. by exists a, b.
Qed.

Lemma get_named reg (method : string) svc sm :
  registry_ok reg →
  get reg method = inl (svc, sm) →
  method = dotted (service.name svc) (Name (serviceMethod.method sm))
  ∧ free_of "." (service.name svc)
  ∧ free_of "." (Name (serviceMethod.method sm))
  ∧ registered reg !! service.name svc = Some svc
  ∧ service.methods svc !! Name (serviceMethod.method sm) = Some sm.
Proof.
  intros Hok (a & b & Ha & Hb & -> & Hs & Hsm)%get_inl_inv.
  destruct (ok_name _ Hok _ _ Hs) as [-> _].
  destruct (ok_entry _ Hok _ _ _ _ Hs Hsm) as (-> & _).
  done.
Qed.

(** X2: in a registry built by [register], what [get] returns for a
    string is the service and the method whose names, joined by a dot,
    are that string; neither name contains a dot. *)
Theorem X2_get_returns_the_named_method reg (method : string) svc sm :
  registry_ok reg →
  get reg method = inl (svc, sm) →
  method = dotted (service.name svc) (Name (serviceMethod.method sm))
  ∧ free_of "." (service.name svc)
  ∧ free_of "." (Name (serviceMethod.method sm))
  ∧ registered reg !! service.name svc = Some svc
  ∧ service.methods svc !! Name (serviceMethod.method sm) = Some sm.
Proof. apply get_named. Qed.

(** X3: a service registered under a name with a dot in it is never
    returned by [get], whatever string is asked for, although its
    registration succeeds like any other. *)
Theorem X3_dotted_service_name_unreachable reg n :
  registry_ok reg →
  ¬ free_of "." n →
  ∀ (method : string) svc sm,
    get reg method = inl (svc, sm) → service.name svc ≠ n.
Proof.
  intros Hok Hdot method svc sm Hget <-.
  by destruct (get_named reg method svc sm Hok Hget) as (_ & ? & _).
Qed.

Lemma get_hit reg a b svc sm :
  free_of "." a → free_of "." b →
  registered reg !! a = Some svc → service.methods svc !! b = Some sm →
  get reg (dotted a b) = inl (svc, sm).
Proof.
  intros Ha Hb Hs Hsm. rewrite get_dotted by done. unfold lookup_both.
  by rewrite index_registered, Hs, Hsm.
Qed.

(** X4: after a registration that returns nil, every method of the
    receiver that is exported and has the shape of the contract resolves
    under [Service.Method], provided neither name contains a dot (the
    name of a Go method never does). *)
Theorem X4_registered_method_resolves reg v (name : string) (passReq : bool) n m :
  serviceName v name = Returns (inl n) →
  registered reg !! n = None →
  NoDup (Name <$> Methods (reflect.typ v)) →
  m ∈ Methods (reflect.typ v) →
  PkgPath m = "" → shape_ok passReq m →
  free_of "." n → free_of "." (Name m) →
  (register reg (Some v) name passReq).2 = Returns None
  ∧ ∃ sm, get (register reg (Some v) name passReq).1 (dotted n (Name m))
          = inl (serviceOf v n passReq, sm)
          ∧ serviceMethod.method sm = m
          ∧ ∀ srv, HasMethod (withServices srv (register reg (Some v) name passReq).1)
                     (dotted n (Name m)) = true.
Proof.
  intros Hn Hfree Hnd Hm Hpkg Hshape Hdn Hdm.
  rewrite (register_fresh _ _ _ _ n);
    [|done|by apply (setupMethods_nonempty _ _ m)|done].
  split; [done|]. simpl.
  destruct (shape_ok_candidate passReq m Hpkg Hshape) as [sm Hsm].
  assert (setupMethods passReq (Methods (reflect.typ v)) !! Name m = Some sm) as Hlook.
  { rewrite setupMethods_foldl. by apply foldl_keep_NoDup. }
  assert (get {| serviceMap.services :=
                   Some (<[n := serviceOf v n passReq]> (registered reg)) |}
            (dotted n (Name m)) = inl (serviceOf v n passReq, sm)) as Hget.
  { apply get_hit; try done. unfold registered. simpl. by rewrite lookup_insert_eq. }
  exists sm. split; [done|]. split.
  - by apply candidate_spec in Hsm as (_ & _ & ? & _).
  - intros srv. unfold HasMethod. simpl. by rewrite Hget.
Qed.

(** The registry after a call of [register]: the one before, or the one
    before with the new service under a name that was free. *)
Lemma register_grows reg rcvr (name : string) (passReq : bool) :
  (register reg rcvr name passReq).1 = reg
  ∨ ∃ v n, rcvr = Some v ∧ serviceName v name = Returns (inl n)
           ∧ registered reg !! n = None
           ∧ (register reg rcvr name passReq).2 = Returns None
           ∧ (register reg rcvr name passReq).1
             = {| serviceMap.services :=
                    Some (<[n := serviceOf v n passReq]> (registered reg)) |}.
Proof.
  destruct (register reg rcvr name passReq) as [reg' res] eqn:Hreg. simpl.
  assert (res = Returns None ∨ res ≠ Returns None) as [->|Hres]
    by (destruct res as [[e|]|]; [by right|by left|by right]);
    [|left; by apply (register_failure_unchanged _ _ _ _ _ _ Hreg Hres)].
  destruct rcvr as [v|]; [|by simplify_eq].
  apply register_success_inv in Hreg as (n & Hn & Hne & Hfree & ->).
  right. by exists v, n.
Qed.

(** X5: registration only adds: a service that is registered stays
    registered, unchanged, and a name that [get] resolves keeps resolving
    to the same service and method, whatever is registered later and
    whether that registration succeeds or not. *)
Theorem X5_registration_only_adds reg rcvr (name : string) (passReq : bool) :
  (∀ k s, registered reg !! k = Some s →
          registered (register reg rcvr name passReq).1 !! k = Some s)
  ∧ (∀ method found, get reg method = inl found →
                     get (register reg rcvr name passReq).1 method = inl found)
  ∧ (∀ srv method, HasMethod (withServices srv reg) method = true →
       HasMethod (withServices srv (register reg rcvr name passReq).1) method = true).
Proof.
  assert (∀ k s, registered reg !! k = Some s →
            registered (register reg rcvr name passReq).1 !! k = Some s) as Hkeep.
  { intros k s Hk.
    destruct (register_grows reg rcvr name passReq)
      as [->|(v & n & _ & _ & Hfree & _ & ->)]; [done|].
    unfold registered at 1. simpl. rewrite lookup_insert_ne; [done|]. congruence. }
  assert (∀ method found, get reg method = inl found →
            get (register reg rcvr name passReq).1 method = inl found) as Hget.
  { intros method [svc sm] (a & b & Ha & Hb & -> & Hs & Hsm)%get_inl_inv.
    apply get_hit; try done. by apply Hkeep. }
  split; [done|]. split; [done|].
  intros srv method. unfold HasMethod. simpl.
  destruct (get reg method) as [found|] eqn:Hfound; [|done].
  by rewrite (Hget _ _ Hfound).
Qed.

(** X6: a registration changes what [get] answers only for the names
    [Service.Method] of the service it has just registered. *)
Theorem X6_register_changes_only_its_names reg rcvr (name method : string) (passReq : bool) :
  get (register reg rcvr name passReq).1 method ≠ get reg method →
  ∃ v n b, rcvr = Some v
           ∧ serviceName v name = Returns (inl n)
           ∧ (register reg rcvr name passReq).2 = Returns None
           ∧ method = dotted n b ∧ free_of "." n ∧ free_of "." b.
Proof.
  intros Hdiff.
  destruct (register_grows reg rcvr name passReq)
    as [Hsame|(v & n & -> & Hn & Hfree & Hres & Hreg)]; [by rewrite Hsame in Hdiff|].
  rewrite Hreg in Hdiff.
  destruct (decide (length (Split method ".") = 2%nat)) as [Hlen|Hlen];
    [apply Split_length_two in Hlen as (a & b & Ha & Hb & ->)
    |rewrite !get_malformed in Hdiff by (by intros ?%Split_length_two); done].
  assert (a = n) as ->.
  { destruct (decide (a = n)) as [->|Hne]; [done|].
    destruct Hdiff. fold (dotted a b). rewrite !get_dotted by done.
    unfold lookup_both. rewrite !index_registered. unfold registered at 1. simpl.
    by rewrite lookup_insert_ne. }
  by exists v, n, b.
Qed.

(** *** The calls of [reflect] that can panic

    [In(i)] and [Out(i)] panic when [i] is out of range, [Elem()] panics
    on a type that is not a pointer (of the kinds modelled).  The loop of
    [register] is written again with them, each call where the source
    has it, [||] evaluating its right operand only when the left one is
    false. *)
Definition andThen {A B} (o : outcome A) (k : A → outcome B) : outcome B :=
  match o with Returns a => k a | Panics => Panics end.

Definition checkedIn (sg : reflect.Signature) (i : Z) : outcome reflect.Type_ :=
  if bool_decide (0 ≤ i) then
    match reflect.ins sg !! Z.to_nat i with Some t => Returns t | None => Panics end
  else Panics.

Definition checkedOut (sg : reflect.Signature) (i : Z) : outcome reflect.Type_ :=
  if bool_decide (0 ≤ i) then
    match reflect.outs sg !! Z.to_nat i with Some t => Returns t | None => Panics end
  else Panics.

Definition checkedElem (t : reflect.Type_) : outcome reflect.Type_ :=
  match t with reflect.PtrTo _ _ e => Returns e | reflect.Other _ _ _ => Panics end.

(** Lines 349-399, [Returns None] where the source says [continue]. *)
Definition candidateChecked (passReq : bool) (method : Method)
  : outcome (option serviceMethod.t) :=
  let mtype := Typ method in
  let paramOffset := if passReq then 1 else 0 in
  if bool_decide (PkgPath method ≠ "") then Returns None
  else if bool_decide (reflect.NumIn mtype ≠ 3 + paramOffset) then Returns None
  else
    andThen
      (if passReq then
         andThen (checkedIn mtype 1) (λ reqType,
           if bool_decide (reflect.Kind reqType ≠ reflect.Ptr) then Returns true
           else andThen (checkedElem reqType) (λ e,
                  Returns (bool_decide (e ≠ typeOfRequest))))
       else Returns false)
      (λ skip,
    if skip : bool then Returns None
    else
    andThen (checkedIn mtype (1 + paramOffset)) (λ args,
    if bool_decide (reflect.Kind args ≠ reflect.Ptr) || negb (isExportedOrBuiltin args)
    then Returns None
    else
    andThen (checkedIn mtype (2 + paramOffset)) (λ reply,
    if bool_decide (reflect.Kind reply ≠ reflect.Ptr) || negb (isExportedOrBuiltin reply)
    then Returns None
    else if bool_decide (reflect.NumOut mtype ≠ 1) then Returns None
    else
    andThen (checkedOut mtype 0) (λ returnType,
    if bool_decide (returnType ≠ typeOfError) then Returns None
    else
    andThen (checkedElem args) (λ a,
    andThen (checkedElem reply) (λ r,
    Returns (Some {| serviceMethod.method := method;
                     serviceMethod.argsType := a;
                     serviceMethod.replyType := r |}))))))).

(** The loop: a panic in one round ends it. *)
Definition setupMethodsChecked (passReq : bool) (ms : list Method)
  : outcome (gmap string serviceMethod.t) :=
  foldl (λ acc method,
           andThen acc (λ tbl,
           andThen (candidateChecked passReq method) (λ kept,
           Returns match kept with
                   | Some sm => <[Name method := sm]> tbl
                   | None => tbl
                   end)))
        (Returns ∅) ms.

(** [serviceMap.register], line 328, with the loop that can panic. *)
Definition registerChecked (m : serviceMap.t) (rcvr : option reflect.Value)
    (name : string) (passReq : bool) : serviceMap.t * outcome (option error) :=
  match rcvr with
  | None => (m, Panics)
  | Some v =>
      match serviceName v name with
      | Panics => (m, Panics)
      | Returns (inr e) => (m, Returns (Some e))
      | Returns (inl n) =>
          match setupMethodsChecked passReq (Methods (reflect.typ v)) with
          | Panics => (m, Panics)
          | Returns methods =>
              let s := {| service.name := n; service.rcvr := v;
                          service.rcvrType := reflect.typ v;
                          service.methods := methods;
                          service.passReq := passReq |} in
              if bool_decide (size (service.methods s) = 0%nat)
              then (m, Returns (Some (Errorf_no_methods n)))
              else let '(m', e) := addToMap m s in (m', Returns e)
          end
      end
  end.

Lemma checkedIn_in_range sg i :
  0 ≤ i < reflect.NumIn sg → checkedIn sg i = Returns (reflect.In sg i).
Proof.
  unfold checkedIn, reflect.NumIn, reflect.In. intros Hi.
  rewrite bool_decide_true by lia.
  destruct (lookup_lt_is_Some_2 (reflect.ins sg) (Z.to_nat i)) as [t Ht]; [lia|].
  rewrite Ht. by rewrite (list_lookup_total_correct _ _ _ Ht).
Qed.

Lemma checkedOut_in_range sg i :
  0 ≤ i < reflect.NumOut sg → checkedOut sg i = Returns (reflect.Out sg i).
Proof.
  unfold checkedOut, reflect.NumOut, reflect.Out. intros Hi.
  rewrite bool_decide_true by lia.
  destruct (lookup_lt_is_Some_2 (reflect.outs sg) (Z.to_nat i)) as [t Ht]; [lia|].
  rewrite Ht. by rewrite (list_lookup_total_correct _ _ _ Ht).
Qed.

(** Every [In], [Out] and [Elem] of the loop is guarded. *)
Lemma candidateChecked_returns passReq method :
  candidateChecked passReq method = Returns (candidate passReq method).
Proof.
  unfold candidateChecked, candidate.
  destruct (bool_decide (PkgPath method ≠ "")); [done|].
  destruct (decide (reflect.NumIn (Typ method) = 3 + (if passReq then 1 else 0)))
    as [Hin|Hin]; [|by rewrite !bool_decide_true].
  rewrite (bool_decide_false (reflect.NumIn _ ≠ _)) by (by intros ?).
  rewrite (checkedIn_in_range _ (1 + _)), (checkedIn_in_range _ (2 + _))
    by (destruct passReq; lia).
  assert ((if passReq then
             andThen (checkedIn (Typ method) 1) (λ reqType,
               if bool_decide (reflect.Kind reqType ≠ reflect.Ptr) then Returns true
               else andThen (checkedElem reqType) (λ e,
                      Returns (bool_decide (e ≠ typeOfRequest))))
           else Returns false)
          = Returns (passReq &&
                     (bool_decide (reflect.Kind (reflect.In (Typ method) 1) ≠ reflect.Ptr)
                      || bool_decide (reflect.Elem (reflect.In (Typ method) 1)
                                      ≠ Some typeOfRequest)))) as ->.
  { destruct passReq; [|done]. rewrite checkedIn_in_range by lia. simpl.
    destruct (reflect.In (Typ method) 1) as [pn pp e|k tn tp]; simpl; [|done].
    f_equal. apply bool_decide_ext. split; [congruence|]. intros Hne ->. by destruct Hne. }
  simpl. destruct (passReq && _); [done|].
  destruct (reflect.In (Typ method) (1 + _)) as [an ap a|k tn tp] eqn:Hargs; simpl;
    [|done].
  destruct (negb (isExportedOrBuiltin _)); [done|].
  destruct (reflect.In (Typ method) (2 + _)) as [rn rp r|k tn tp] eqn:Hreply; simpl;
    [|done].
  destruct (negb (isExportedOrBuiltin _)); [done|].
  destruct (decide (reflect.NumOut (Typ method) = 1)) as [Hout|Hout];
    [|by rewrite !bool_decide_true].
  rewrite (bool_decide_false (reflect.NumOut _ ≠ _)) by (by intros ?).
  rewrite checkedOut_in_range by lia. simpl.
  by destruct (bool_decide (reflect.Out (Typ method) 0 ≠ typeOfError)).
Qed.

Lemma setupMethodsChecked_returns passReq ms :
  setupMethodsChecked passReq ms = Returns (setupMethods passReq ms).
Proof.
  unfold setupMethodsChecked, setupMethods. generalize (∅ : gmap string serviceMethod.t).
  induction ms as [|method ms IH]; intros tbl; [done|].
  simpl. rewrite candidateChecked_returns. simpl. apply IH.
Qed.

Lemma registerChecked_register reg rcvr name passReq :
  registerChecked reg rcvr name passReq = register reg rcvr name passReq.
Proof.
  unfold registerChecked, register. destruct rcvr as [v|]; [|done].
  destruct (serviceName v name) as [[n|e]|]; [|done..].
  by rewrite setupMethodsChecked_returns.
Qed.

Lemma IndirectType_panics v :
  IndirectType v = Panics ↔
  reflect.Kind (reflect.typ v) = reflect.Ptr ∧ reflect.isNil v = true.
Proof.
  unfold IndirectType. destruct (reflect.typ v) as [pn pp e|k tn tp]; simpl.
  - destruct (reflect.isNil v); split; try done. by intros [_ ?].
  - split; [done|]. by intros [? _].
Qed.

Lemma serviceName_panics v name :
  serviceName v name = Panics ↔ name = "" ∧ IndirectType v = Panics.
Proof.
  unfold serviceName. destruct (bool_decide (name = "")) eqn:Hname.
  - apply bool_decide_eq_true in Hname.
    destruct (IndirectType v) as [t|]; [|done].
    split; [|by intros [_ ?]].
    destruct (negb (isExported (reflect.Name t))); [done|].
    by destruct (bool_decide (reflect.Name t = "")).
  - apply bool_decide_eq_false in Hname.
    split; [|by intros [? _]]. by destruct (bool_decide (name = "")).
Qed.

Lemma register_panics reg v name passReq :
  (register reg (Some v) name passReq).2 = Panics ↔ serviceName v name = Panics.
Proof.
  unfold register. destruct (serviceName v name) as [[n|e]|]; try done.
  destruct (bool_decide _); [done|]. by destruct (addToMap _ _).
Qed.

(** X7: with every call of [reflect] that can panic written out,
    [register] panics exactly on the nil interface and, when the name is
    to be taken from the type, on a nil pointer.  The loop over the
    methods never panics, whatever their signatures: each [In] and [Out]
    comes after the test of [NumIn] or [NumOut] that keeps it in range,
    each [Elem] after the test of the kind, so that the registration is
    the one computed with the total accessors.  A panic leaves the
    registry as it was. *)
Theorem X7_register_panics_on_nil reg rcvr (name : string) (passReq : bool) :
  (∀ method, candidateChecked passReq method = Returns (candidate passReq method))
  ∧ registerChecked reg rcvr name passReq = register reg rcvr name passReq
  ∧ ((registerChecked reg rcvr name passReq).2 = Panics ↔
     rcvr = None
     ∨ ∃ v, rcvr = Some v ∧ name = ""
            ∧ reflect.Kind (reflect.typ v) = reflect.Ptr ∧ reflect.isNil v = true)
  ∧ ((registerChecked reg rcvr name passReq).2 = Panics →
     (registerChecked reg rcvr name passReq).1 = reg).
Proof.
  split; [apply candidateChecked_returns|].
  split; [apply registerChecked_register|].
  rewrite registerChecked_register. split.
  - destruct rcvr as [v|]; [|split; [by left|done]].
    rewrite register_panics, serviceName_panics, IndirectType_panics.
    split.
    + intros (? & ? & ?). right. by exists v.
    + intros [?|(v' & [= <-] & ? & ? & ?)]; done.
  - intros Hp. destruct (register reg rcvr name passReq) as [reg' res] eqn:Hreg.
    simpl in *. subst res. by apply (register_failure_unchanged _ _ _ _ _ _ Hreg).
Qed.

(** X8: no method has both shapes: what [RegisterService] keeps,
    [RegisterTCPService] leaves out, and the other way round. *)
Theorem X8_http_and_tcp_shapes_disjoint m :
  (is_Some (candidate true m) → candidate false m = None)
  ∧ (is_Some (candidate false m) → candidate true m = None).
Proof.
  assert (shape_ok true m → shape_ok false m → False) as Hboth.
  { unfold shape_ok. intros [H3 _] [H2 _].
    by destruct (params m) as [|? [|? [|? [|]]]]. }
  split; intros [sm Hsm]; apply candidate_spec in Hsm as (_ & Hshape & _).
  - destruct (candidate false m) as [sm'|] eqn:Hc; [|done].
    apply candidate_spec in Hc as (_ & Hshape' & _). by destruct Hboth.
  - destruct (candidate true m) as [sm'|] eqn:Hc; [|done].
    apply candidate_spec in Hc as (_ & Hshape' & _). by destruct Hboth.
Qed.

End RegistryProperties.

(** * Further properties of the dispatcher *)

Section DispatcherProperties.
Context `{GoText} `{TypeInfo}.
Implicit Types (s : Server.t) (r : Request) (tr : list Event) (ev : Event).

(** Membership in the events of an exit, spelled out. *)
Ltac spell Hin :=
  repeat match type of Hin with
         | context [match Server.afterFunc ?s with _ => _ end] =>
             destruct (Server.afterFunc s)
         end;
  rewrite ?elem_of_app, ?elem_of_cons, ?elem_of_nil in Hin;
  destruct_or!; try done; simplify_eq/=; try done.

Lemma hook_or_call_inv s r ev :
  hookOrCall ev = true →
  ev ∈ trace (ServeHTTP s r) →
  ∃ codec method svc sm args,
    reqMethod r ∈ Server.supportedMethods s
    ∧ selectCodec s (mediaType r) = Some codec
    ∧ CodecRequest.Method (Codec.NewRequest codec r) = inl method
    ∧ get (Server.services s) method = inl (svc, sm)
    ∧ CodecRequest.ReadRequest (Codec.NewRequest codec r) (serviceMethod.argsType sm)
      = inl args
    ∧ (ev = Intercept (infoBefore method r)
       ∨ ev = Before (infoBefore method (effectiveRequest s method r))
       ∨ ev = Call (serviceMethod.method sm) (service.rcvr svc)
                (if service.passReq svc then Some (effectiveRequest s method r) else None)
                args).
Proof.
  intros Hev Hin.
  destruct (ServeHTTP_lifecycle s r) as (e & Hlife & _).
  remember (trace (ServeHTTP s r)) as tr eqn:Htr. clear Htr.
  destruct Hlife; spell Hin.
  all: exists codec, method, svc, sm, args; split_and!; try done.
  all: match goal with
       | Hi : _ ∈ invocation _ _ _ _ _ _ |- _ =>
           apply elem_of_invocation in Hi as [[_ ?]|[[_ ?]|?]]; auto
       end.
Qed.

(** X9: a hook before the call, or a service method, is called only once
    the verb is allowed, a codec is selected, the method name is read and
    resolved and the arguments are decoded; what is called then is the
    intercept hook with the original request, the before hook with the
    request in force, or the resolved method on the registered receiver
    with the decoded arguments. *)
Theorem X9_hooks_and_method_after_decoding s r ev :
  hookOrCall ev = true →
  ev ∈ trace (ServeHTTP s r) →
  ∃ codec method svc sm args,
    reqMethod r ∈ Server.supportedMethods s
    ∧ selectCodec s (mediaType r) = Some codec
    ∧ CodecRequest.Method (Codec.NewRequest codec r) = inl method
    ∧ get (Server.services s) method = inl (svc, sm)
    ∧ CodecRequest.ReadRequest (Codec.NewRequest codec r) (serviceMethod.argsType sm)
      = inl args
    ∧ (ev = Intercept (infoBefore method r)
       ∨ ev = Before (infoBefore method (effectiveRequest s method r))
       ∨ ev = Call (serviceMethod.method sm) (service.rcvr svc)
                (if service.passReq svc then Some (effectiveRequest s method r) else None)
                args).
Proof. apply hook_or_call_inv. Qed.

(** The events of the hooks and of the call are none of the others. *)
Ltac not_invocation :=
  repeat match goal with
         | Hi : _ ∈ invocation _ _ _ _ _ _ |- _ =>
             apply elem_of_invocation in Hi as [[_ ?]|[[_ ?]|?]]; simplify_eq/=
         end.

(** The call is among the events. *)
Ltac called := rewrite ?elem_of_cons, ?elem_of_app, elem_of_invocation; auto 10.

(** X10: the reply given to the codec to encode is the one the service
    method has produced, in a call that returned no error, and the codec
    request it is given to is the one of the codec selected. *)
Theorem X10_encoded_reply_is_the_methods s r c (reply : Payload) :
  CodecWriteResponse c reply ∈ trace (ServeHTTP s r) →
  ∃ codec f v q a,
    selectCodec s (mediaType r) = Some codec
    ∧ c = Codec.NewRequest codec r
    ∧ Call f v q a ∈ trace (ServeHTTP s r)
    ∧ Func f v q a = (reply, None).
Proof.
  intros Hin.
  destruct (ServeHTTP_lifecycle s r) as (e & Hlife & _).
  remember (trace (ServeHTTP s r)) as tr eqn:Htr. clear Htr.
  destruct Hlife; spell Hin; not_invocation.
  all: exists codec, (serviceMethod.method sm), (service.rcvr svc),
         (if service.passReq svc then Some (effectiveRequest s method r) else None), args.
  all: split_and!; try done.
  all: called.
Qed.

(** X11: a request is answered an error at most once, as the last thing
    the handler does, right after the one status it writes; a handler that
    runs to its end has written no status and no error response. *)
Theorem X11_one_error_response_last s r :
  (completed (ServeHTTP s r) = true
   ∧ errorResponses (trace (ServeHTTP s r)) = []
   ∧ statuses (trace (ServeHTTP s r)) = [])
  ∨ (completed (ServeHTTP s r) = false
     ∧ ∃ before status c err,
         trace (ServeHTTP s r)
         = (before ++ [WriteHeader status; CodecWriteErrorResponse c err])%list
         ∧ errorResponses (trace (ServeHTTP s r)) = [(c, err)]
         ∧ statuses (trace (ServeHTTP s r)) = [status]).
Proof.
  destruct (ServeHTTP_lifecycle s r) as (e & Hlife & Hdone).
  pose proof (lifecycle_statuses _ _ _ _ Hlife) as Hst.
  destruct (completed (ServeHTTP s r)) eqn:Hc.
  { left. assert (e = Success) as -> by by apply Hdone.
    rewrite Hst. split; [done|]. split; [|done].
    by apply (lifecycle_errorResponses _ _ _ _ Hlife). }
  right. split; [done|].
  assert (e ≠ Success) as He.
  { intros ->. assert (false = true) by by apply Hdone. done. }
  remember (trace (ServeHTTP s r)) as tr eqn:Htr. clear Htr Hdone Hc.
  destruct Hlife; try done.
  - by eexists [], StatusMethodNotAllowed, _, _.
  - by eexists [], StatusUnsupportedMediaType, _, _.
  - by eexists [CodecMethod c], StatusOK, c, _.
  - by eexists [CodecMethod c], StatusOK, c, _.
  - by eexists [CodecMethod c; CodecReadRequest c (serviceMethod.argsType sm)],
      StatusOK, c, _.
  - eexists ([CodecMethod c; CodecReadRequest c (serviceMethod.argsType sm)]
             ++ invocation s method r svc sm args)%list, StatusOK, c, _.
    split; [by rewrite <- !app_assoc|]. split; [|done].
    by rewrite !errorResponses_app, (proj1 (proj2 (proj2 (invocation_quiet _ _ _ _ _ _)))).
  - eexists ([CodecMethod c; CodecReadRequest c (serviceMethod.argsType sm)]
             ++ invocation s method r svc sm args
             ++ [HeaderSet "x-content-type-options" "nosniff";
                 CodecWriteResponse c reply])%list, StatusOK, c, _.
    split; [by rewrite <- !app_assoc|]. split; [|done].
    by rewrite !errorResponses_app, (proj1 (proj2 (proj2 (invocation_quiet _ _ _ _ _ _)))).
Qed.

(** The codec request an event is a call on. *)
Definition codecRequestOf ev : option CodecRequest.t :=
  match ev with
  | CodecMethod c | CodecReadRequest c _ | CodecWriteResponse c _
  | CodecWriteErrorResponse c _ => Some c
  | _ => None
  end.

(** X12: once a codec is selected, every call of the handler on a codec
    request, to read the method name, to decode, to encode or to answer
    an error, is on the request which that codec makes of the HTTP
    request as it was received, also when an intercept hook has returned
    another request for the hooks and the method. *)
Theorem X12_codec_calls_on_selected_codec s r codec ev c :
  reqMethod r ∈ Server.supportedMethods s →
  selectCodec s (mediaType r) = Some codec →
  ev ∈ trace (ServeHTTP s r) →
  codecRequestOf ev = Some c →
  c = Codec.NewRequest codec r.
Proof.
  intros Hverb Hcodec Hin Hc.
  destruct (ServeHTTP_lifecycle s r) as (e & Hlife & _).
  remember (trace (ServeHTTP s r)) as tr eqn:Htr. clear Htr.
  destruct Hlife; spell Hin; not_invocation; congruence.
Qed.

(** X13: the only header the handler sets is [x-content-type-options:
    nosniff]; it sets it exactly when the method was called and returned
    no error, and then the very next event is the encoding of the reply. *)
Theorem X13_nosniff_after_successful_call s r :
  (∀ k v, HeaderSet k v ∈ trace (ServeHTTP s r) →
     k = "x-content-type-options" ∧ v = "nosniff"
     ∧ ∃ before c reply after,
         trace (ServeHTTP s r)
         = (before ++ [HeaderSet k v; CodecWriteResponse c reply] ++ after)%list)
  ∧ ((∃ k v, HeaderSet k v ∈ trace (ServeHTTP s r)) ↔
     ∃ f v q a, Call f v q a ∈ trace (ServeHTTP s r) ∧ (Func f v q a).2 = None).
Proof.
  destruct (ServeHTTP_lifecycle s r) as (e & Hlife & _).
  remember (trace (ServeHTTP s r)) as tr eqn:Htr. clear Htr.
  split.
  - intros k v Hin. destruct Hlife; spell Hin; not_invocation.
    all: split; [done|]; split; [done|].
    all: eexists ([CodecMethod c; CodecReadRequest c (serviceMethod.argsType sm)]
                  ++ invocation s method r svc sm args)%list, c, reply, _;
      by rewrite <- !app_assoc.
  - split.
    + intros (k & v & Hin). destruct Hlife; spell Hin; not_invocation.
      all: exists (serviceMethod.method sm), (service.rcvr svc),
             (if service.passReq svc then Some (effectiveRequest s method r) else None),
             args; split; [called|].
      all: match goal with Hcall : invoke _ _ _ _ _ _ = _ |- _ =>
             unfold invoke in Hcall; by rewrite Hcall end.
    + intros (f & v & q & a & Hin & Hnil).
      destruct Hlife; spell Hin; not_invocation.
      all: match goal with Hcall : invoke _ _ _ _ _ _ = _ |- _ =>
             unfold invoke in Hcall; try (rewrite Hcall in Hnil; done) end.
      all: exists "x-content-type-options", "nosniff";
        repeat (rewrite elem_of_cons || rewrite elem_of_app); auto 10.
Qed.

(** X14: in a server whose registry [register] has built, a method is
    called with the arguments its signature asks for: it is exported, it
    has the shape with the request when it is given one and the shape
    without when it is not, so as many parameters as the call passes
    values. *)
Theorem X14_called_as_its_signature_asks s r f v q (a : Payload) :
  registry_ok (Server.services s) →
  Call f v q a ∈ trace (ServeHTTP s r) →
  PkgPath f = ""
  ∧ shape_ok (bool_decide (is_Some q)) f
  ∧ reflect.NumIn (Typ f) = match q with Some _ => 4 | None => 3 end
  ∧ reflect.NumOut (Typ f) = 1.
Proof.
  intros Hok Hin.
  apply hook_or_call_inv in Hin as (codec & method & svc & sm & args & _ & _ & _ & Hget
                                    & _ & [?|[?|Hcall]]); try done.
  injection Hcall as -> -> -> ->.
  apply get_inl_inv in Hget as (sn & mn & _ & _ & _ & Hsvc & Hsm).
  destruct (ok_entry _ Hok _ _ _ _ Hsvc Hsm) as (_ & Hpkg & Hshape & _).
  split; [done|].
  assert (bool_decide (is_Some (if service.passReq svc
                                then Some (effectiveRequest s method r) else None))
          = service.passReq svc) as -> by by destruct (service.passReq svc).
  split; [done|].
  destruct Hshape as [Hparams Houts]. unfold reflect.NumIn, reflect.NumOut.
  rewrite Houts. split; [|done]. unfold params in Hparams.
  destruct (service.passReq svc), (reflect.ins (Typ (serviceMethod.method sm)))
    as [|t0 [|t1 [|t2 [|t3 [|]]]]]; done.
Qed.

Lemma status_405 s r :
  responseStatus (trace (ServeHTTP s r)) = StatusMethodNotAllowed ↔
  reqMethod r ∉ Server.supportedMethods s.
Proof.
  destruct (ServeHTTP_lifecycle s r) as (e & Hlife & _).
  unfold responseStatus. rewrite (lifecycle_statuses _ _ _ _ Hlife).
  destruct (lifecycle_policy _ _ _ _ Hlife) as [<- _].
  by destruct e.
Qed.

(** X15: a new server answers 405 to every verb but [POST], compared
    byte for byte; allowing one more verb stops the 405 for that verb and
    changes it for no other. *)
Theorem X15_allowed_verbs s r (dflt : Codec.t) (verb : string) :
  (responseStatus (trace (ServeHTTP (NewServer dflt) r)) = StatusMethodNotAllowed ↔
   reqMethod r ≠ "POST")
  ∧ (responseStatus (trace (ServeHTTP (AddSupportedHTTPMethod s verb) r))
     = StatusMethodNotAllowed ↔
     reqMethod r ≠ verb
     ∧ responseStatus (trace (ServeHTTP s r)) = StatusMethodNotAllowed).
Proof.
  rewrite !status_405. simpl. unfold MethodPost.
  rewrite elem_of_singleton, elem_of_union, elem_of_singleton. tauto.
Qed.

End DispatcherProperties.

Section MediaTypeProperties.
Implicit Types (r : Request).

Lemma Index_slice sep (s : string) :
  Index s sep ≠ -1 →
  free_of sep (slice_to s (Z.to_nat (Index s sep)))
  ∧ ∃ rest, s = slice_to s (Z.to_nat (Index s sep)) +:+ String sep rest.
Proof.
  induction s as [|c s IH]; simpl; [done|].
  case_decide as Hc.
  - intros _. subst c. split; [done|]. by exists s.
  - pose proof (Index_lower sep s). case_decide as Hi; [done|]. intros _.
    destruct (IH Hi) as (Hfree & rest & Hrest).
    replace (Z.to_nat (1 + Index s sep)) with (S (Z.to_nat (Index s sep))) by lia.
    simpl. split; [by apply free_of_cons|].
    exists rest.
    change (String c s
            = String c (slice_to s (Z.to_nat (Index s sep)) +:+ String sep rest)).
    by f_equal.
Qed.

(** X16: the media type the codec is chosen by never contains a
    semicolon, and it is the Content-Type header itself when that has no
    semicolon, and what stands before its first semicolon otherwise. *)
Theorem X16_media_type_is_the_part_before_semicolon r :
  free_of ";" (mediaType r)
  ∧ (reqContentType r = mediaType r
     ∨ ∃ parameters, reqContentType r = mediaType r +:+ String ";" parameters).
Proof.
  unfold mediaType. case_bool_decide as Hi.
  - destruct (Index_slice ";" (reqContentType r) Hi) as (Hfree & rest & Hrest).
    split; [done|]. right. by exists rest.
  - split; [done|]. by left.
Qed.

End MediaTypeProperties.

Section CodecProperties.
Context `{GoText}.
Implicit Types (s : Server.t) (r : Request).

(** X17: a codec registered under a content type is the one selected for
    every media type that lower-cases to the same string, the empty one
    included, and it replaces a codec registered under such a type
    before; for the other non-empty media types the selection is what it
    was. *)
Theorem X17_registered_codec_is_selected s (codec : Codec.t) (contentType : string) :
  (∀ mt, ToLower mt = ToLower contentType →
         selectCodec (RegisterCodec s codec contentType) mt = Some codec)
  ∧ (∀ mt, mt ≠ "" → ToLower mt ≠ ToLower contentType →
           selectCodec (RegisterCodec s codec contentType) mt = selectCodec s mt).
Proof.
  split.
  - intros mt Hmt. unfold selectCodec. simpl.
    destruct (bool_decide (mt = "") && _) eqn:Hdefault.
    + apply andb_true_iff in Hdefault as [_ Hsize]. apply bool_decide_eq_true in Hsize.
      destruct (map_size_one _ Hsize) as (k & x & Hk).
      assert (<[ToLower contentType := codec]> (Server.codecs s) !! ToLower contentType
              = Some codec) as Hin by apply lookup_insert_eq.
      rewrite Hk in Hin |- *. apply lookup_singleton_Some in Hin as [_ ->].
      by rewrite map_to_list_singleton.
    + rewrite Hmt. apply lookup_insert_eq.
  - intros mt Hne Hother. rewrite !selectCodec_lookup by by left.
    simpl. by rewrite lookup_insert_ne.
Qed.

(** X18: the default for a request without Content-Type holds with one
    codec only: when a second codec is registered, under a type of its
    own, such a request is no longer given the first codec, and no codec
    at all unless one is registered under the empty type. *)
Theorem X18_second_codec_ends_the_default s (codec : Codec.t) (contentType : string) :
  size (Server.codecs s) = 1%nat →
  Server.codecs s !! ToLower contentType = None →
  Server.codecs s !! ToLower "" = None →
  ToLower contentType ≠ ToLower "" →
  is_Some (selectCodec s "")
  ∧ selectCodec (RegisterCodec s codec contentType) "" = None.
Proof.
  intros Hsize Hfresh Hempty Hne. split.
  - destruct (selectCodec_single s Hsize) as (k & c & _ & ->). by eexists.
  - rewrite selectCodec_lookup.
    + simpl. by rewrite lookup_insert_ne.
    + right. simpl. rewrite map_size_insert_None by done. lia.
Qed.

End CodecProperties.

(** * Further properties of the mutex *)

Section MutexProperties.
Context (svcs : nat → service.t) (r0 : serviceMap.t).
Implicit Types (σ : shared) (t : nat).

(** The states the goroutines reach. *)
Definition reachable σ : Prop := ∃ schedule, σ = run svcs schedule (start r0).

(** A taken mutex has a goroutine that holds it. *)
Definition held σ : Prop := locked σ = true → ∃ t, holds (pcs σ t).

Lemma exec_held σ t :
  atomic_registration svcs r0 σ → held σ → held (exec svcs t σ).
Proof.
  intros Inv Hheld. unfold exec.
  destruct (pcs σ t) as [| | |e|e|] eqn:Hpc; [| | | |done..].
  - destruct (locked σ); [done|]. intros _. exists t. simpl.
    by rewrite fn_lookup_insert.
  - destruct (serviceMap.services (registry σ)) as [r|].
    + case_bool_decide; intros _; exists t; simpl; by rewrite fn_lookup_insert.
    + intros _. exists t. simpl. by rewrite fn_lookup_insert.
  - destruct (insert_fresh _ _ _ Inv t Hpc) as (r & -> & _).
    intros _. exists t. simpl. by rewrite fn_lookup_insert.
  - by intros ?.
Qed.

Lemma run_snoc schedule t σ :
  run svcs (schedule ++ [t]) σ = exec svcs t (run svcs schedule σ).
Proof. unfold run. by rewrite foldl_app. Qed.

Lemma reachable_invariants σ :
  reachable σ → atomic_registration svcs r0 σ ∧ held σ.
Proof.
  intros [schedule ->]. induction schedule as [|t schedule [IH1 IH2]] using rev_ind.
  - split; [apply start_atomic|]. by intros ?.
  - rewrite run_snoc. split; [by apply exec_atomic|by apply exec_held].
Qed.

(** X19: however the registrations interleave, the mutex is taken exactly
    while a goroutine is between [Lock] and [Unlock], and that goroutine
    is the only one there. *)
Theorem X19_mutex_taken_iff_held σ :
  reachable σ →
  (locked σ = true ↔ ∃ t, holds (pcs σ t))
  ∧ (∀ t t', holds (pcs σ t) → holds (pcs σ t') → t = t').
Proof.
  intros [Inv Hheld]%reachable_invariants. split; [split|].
  - apply Hheld.
  - intros [t Ht]. by apply (holder_locked _ _ _ Inv t).
  - apply (holder_unique _ _ _ Inv).
Qed.

(** X20: the goroutine that holds the mutex gives it back within three
    statements of its own, whether it inserts its service or finds the
    name taken, and has then returned; a goroutine that finds the mutex
    free takes it. *)
Theorem X20_mutex_is_released σ t :
  reachable σ →
  (holds (pcs σ t) →
   locked (run svcs [t; t; t] σ) = false
   ∧ ∃ e, pcs (run svcs [t; t; t] σ) t = Done e)
  ∧ (pcs σ t = AtLock → locked σ = false →
     pcs (exec svcs t σ) t = AtCheck ∧ locked (exec svcs t σ) = true).
Proof.
  intros [Inv _]%reachable_invariants.
  assert (∀ schedule σ', run svcs (t :: schedule) σ'
                         = run svcs schedule (exec svcs t σ')) as Hcons by done.
  split.
  - intros Hholds.
    assert (∃ e reg' f, run svcs [t; t; t] σ
                        = {| locked := false; registry := reg'; pcs := <[t := Done e]> f |})
      as (e & reg' & f & ->); [|simpl; rewrite fn_lookup_insert; eauto].
    destruct (pcs σ t) as [| | |e|e|] eqn:Hpc; try done.
    + rewrite Hcons. unfold exec at 1. rewrite Hpc.
      destruct (serviceMap.services (registry σ)) as [r|] eqn:Hr.
      * case_bool_decide.
        -- rewrite Hcons. unfold exec at 1. cbn [locked registry pcs]. rewrite fn_lookup_insert.
           rewrite Hcons. unfold exec at 1. cbn [locked registry pcs]. rewrite fn_lookup_insert.
           by eexists _, _, _.
        -- rewrite Hcons. unfold exec at 1. cbn [locked registry pcs]. rewrite fn_lookup_insert, Hr.
           rewrite Hcons. unfold exec at 1. cbn [locked registry pcs]. rewrite fn_lookup_insert.
           by eexists _, _, _.
      * rewrite Hcons. unfold exec at 1. cbn [locked registry pcs serviceMap.services].
        rewrite fn_lookup_insert.
        rewrite Hcons. unfold exec at 1. cbn [locked registry pcs]. rewrite fn_lookup_insert.
        by eexists _, _, _.
    + destruct (insert_fresh _ _ _ Inv t Hpc) as (r & Hr & _).
      rewrite Hcons. unfold exec at 1. rewrite Hpc, Hr.
      rewrite Hcons. unfold exec at 1. cbn [locked registry pcs]. rewrite fn_lookup_insert.
      rewrite Hcons. unfold exec at 1. cbn [locked registry pcs]. rewrite fn_lookup_insert.
      by eexists _, _, _.
    + rewrite Hcons. unfold exec at 1. rewrite Hpc.
      rewrite Hcons. unfold exec at 1. cbn [locked registry pcs]. rewrite fn_lookup_insert.
      rewrite Hcons. unfold exec at 1. cbn [locked registry pcs]. rewrite fn_lookup_insert.
      by eexists _, _, _.
  - intros Hpc Hfree. unfold exec. rewrite Hpc, Hfree. simpl.
    by rewrite fn_lookup_insert.
Qed.

End MutexProperties.

(** * The further properties on the small program *)

Section MoreWitnesses.
#[local] Existing Instance Demo.text.
#[local] Existing Instance Demo.types.
Import Demo Run.

Lemma withCalc_ok : registry_ok withCalc.
Proof. apply register_keeps_ok, empty_registry_ok. Defined.

(** [RegisterService(new(Calc), "my.Calc")]. *)
Definition dottedCalc : serviceMap.t := (register empty (Some aCalc) "my.Calc" true).1.

(** A nil [*Calc]. *)
Definition nilCalc : reflect.Value :=
  {| reflect.typ := ptr Calc; reflect.isNil := true; reflect.addr := 5 |}.

(** Two goroutines that register [Calc]. *)
Definition twoCalcs (t : nat) : service.t := serviceOf aCalc "Calc" true.

Lemma X1_register_keeps_registry_ok_witness :
  registry_ok empty ∧ registry_ok (register empty (Some aCalc) "" true).1.
Proof.
  destruct (X1_register_keeps_registry_ok empty (Some aCalc) "" true) as [Hstart Hkeep].
  split; [exact Hstart|exact (Hkeep Hstart)].
Defined.

Lemma X2_get_returns_the_named_method_witness :
  registry_ok withCalc
  ∧ ∃ svc sm, get withCalc "Calc.Add" = inl (svc, sm)
              ∧ "Calc.Add" = dotted (service.name svc) (Name (serviceMethod.method sm)).
Proof.
  split; [exact withCalc_ok|].
  assert (∃ svc sm, get withCalc "Calc.Add" = inl (svc, sm)) as (svc & sm & Hget).
  { eexists _, _. vm_compute. reflexivity. }
  exists svc, sm. split; [exact Hget|].
  exact (proj1 (X2_get_returns_the_named_method withCalc "Calc.Add" svc sm withCalc_ok Hget)).
Defined.

Lemma X3_dotted_service_name_unreachable_witness :
  registry_ok dottedCalc ∧ ¬ free_of "." "my.Calc"
  ∧ is_Some (registered dottedCalc !! "my.Calc")
  ∧ get dottedCalc "my.Calc.Add" = inr (RpcMethodMalformedError "my.Calc.Add")
  ∧ ∀ (method : string) svc sm,
      get dottedCalc method = inl (svc, sm) → service.name svc ≠ "my.Calc".
Proof.
  assert (registry_ok dottedCalc) as Hok by apply register_keeps_ok, empty_registry_ok.
  assert (¬ free_of "." "my.Calc") as Hdot by (intros Hf; discriminate Hf).
  split; [exact Hok|]. split; [exact Hdot|]. split; [by eexists|].
  split; [vm_compute; reflexivity|].
  exact (X3_dotted_service_name_unreachable dottedCalc "my.Calc" Hok Hdot).
Defined.

Lemma X4_registered_method_resolves_witness :
  serviceName aCalc "" = Returns (inl "Calc")
  ∧ free_of "." "Calc" ∧ free_of "." "Add"
  ∧ ∀ srv, HasMethod (withServices srv (register empty (Some aCalc) "" true).1) "Calc.Add"
           = true.
Proof.
  split; [reflexivity|]. split; [reflexivity|]. split; [reflexivity|].
  assert (NoDup (Name <$> Methods (reflect.typ aCalc))) as Hnd.
  { apply (bool_decide_unpack _). vm_compute. exact I. }
  assert (add (ptr Calc) ∈ Methods (reflect.typ aCalc)) as Hin by apply list_elem_of_here.
  assert (serviceName aCalc "" = Returns (inl "Calc")) as Hn by reflexivity.
  assert (registered empty !! "Calc" = None) as Hfree by reflexivity.
  assert (free_of "." "Calc") as Hdn by reflexivity.
  assert (free_of "." (Name (add (ptr Calc)))) as Hdm by reflexivity.
  destruct (X4_registered_method_resolves empty aCalc "" true "Calc" (add (ptr Calc))
              Hn Hfree Hnd Hin (proj1 add_shape_ok) (proj2 add_shape_ok) Hdn Hdm)
    as (_ & sm & _ & _ & Hhas).
  exact Hhas.
Defined.

Lemma X5_registration_only_adds_witness :
  (∃ found, get withCalc "Calc.Add" = inl found)
  ∧ (register withCalc (Some a_calc) "calc" true).2 = Returns None
  ∧ ∃ found, get (register withCalc (Some a_calc) "calc" true).1 "Calc.Add" = inl found.
Proof.
  assert (∃ found, get withCalc "Calc.Add" = inl found) as [found Hget].
  { eexists. vm_compute. reflexivity. }
  split; [by exists found|]. split; [vm_compute; reflexivity|].
  exists found.
  exact (proj1 (proj2 (X5_registration_only_adds withCalc (Some a_calc) "calc" true))
           "Calc.Add" found Hget).
Defined.

Lemma X6_register_changes_only_its_names_witness :
  get (register empty (Some aCalc) "" true).1 "Calc.Add" ≠ get empty "Calc.Add"
  ∧ ∃ v n b, Some aCalc = Some v
             ∧ serviceName v "" = Returns (inl n)
             ∧ (register empty (Some aCalc) "" true).2 = Returns None
             ∧ "Calc.Add" = dotted n b ∧ free_of "." n ∧ free_of "." b.
Proof.
  assert (get (register empty (Some aCalc) "" true).1 "Calc.Add" ≠ get empty "Calc.Add")
    as Hdiff.
  { intros Heq. vm_compute in Heq. discriminate Heq. }
  split; [exact Hdiff|].
  exact (X6_register_changes_only_its_names empty (Some aCalc) "" "Calc.Add" true Hdiff).
Defined.

Lemma X7_register_panics_on_nil_witness :
  reflect.Kind (reflect.typ nilCalc) = reflect.Ptr ∧ reflect.isNil nilCalc = true
  ∧ registerChecked withCalc (Some nilCalc) "" true = (withCalc, Panics)
  ∧ (registerChecked empty (Some nilCalc) "Calc" true).2 = Returns None
  ∧ candidateChecked true (sub (ptr Calc)) = Returns None.
Proof.
  destruct (X7_register_panics_on_nil withCalc (Some nilCalc) "" true)
    as (Hloop & _ & Hiff & Hsame).
  assert ((registerChecked withCalc (Some nilCalc) "" true).2 = Panics) as Hp.
  { apply Hiff. right. exists nilCalc. repeat split. }
  split; [reflexivity|]. split; [reflexivity|].
  split; [|split; [vm_compute; reflexivity|by rewrite Hloop]].
  rewrite (surjective_pairing (registerChecked withCalc (Some nilCalc) "" true)).
  by rewrite Hp, (Hsame Hp).
Defined.

Lemma X8_http_and_tcp_shapes_disjoint_witness :
  is_Some (candidate true (add (ptr Calc))) ∧ candidate false (add (ptr Calc)) = None
  ∧ is_Some (candidate false (sub (ptr Calc))) ∧ candidate true (sub (ptr Calc)) = None.
Proof.
  assert (is_Some (candidate true (add (ptr Calc)))) as Hadd by (by eexists).
  assert (is_Some (candidate false (sub (ptr Calc)))) as Hsub by (by eexists).
  split; [exact Hadd|].
  split; [exact (proj1 (X8_http_and_tcp_shapes_disjoint (add (ptr Calc))) Hadd)|].
  split; [exact Hsub|].
  exact (proj2 (X8_http_and_tcp_shapes_disjoint (sub (ptr Calc))) Hsub).
Defined.

(** The events of a successful request on the server with hooks. *)
Lemma hooked_trace :
  trace (ServeHTTP hooked (post "application/json"))
  = [CodecMethod (Codec.NewRequest json (post "application/json"));
     CodecReadRequest (Codec.NewRequest json (post "application/json")) Args;
     Intercept (infoBefore "Calc.Add" (post "application/json"));
     Before (infoBefore "Calc.Add" replacement);
     Call (add (ptr Calc)) aCalc (Some replacement) "2,3";
     HeaderSet "x-content-type-options" "nosniff";
     CodecWriteResponse (Codec.NewRequest json (post "application/json")) "sum of 2,3";
     After (infoAfter "Calc.Add" replacement)].
Proof. vm_compute. reflexivity. Defined.

Ltac here := rewrite hooked_trace; repeat (apply list_elem_of_here || apply list_elem_of_further).

Lemma X9_hooks_and_method_after_decoding_witness :
  Before (infoBefore "Calc.Add" replacement)
  ∈ trace (ServeHTTP hooked (post "application/json"))
  ∧ ∃ codec, selectCodec hooked (mediaType (post "application/json")) = Some codec
             ∧ CodecRequest.Method (Codec.NewRequest codec (post "application/json"))
               = inl "Calc.Add".
Proof.
  assert (Before (infoBefore "Calc.Add" replacement)
          ∈ trace (ServeHTTP hooked (post "application/json"))) as Hin by here.
  split; [exact Hin|].
  destruct (X9_hooks_and_method_after_decoding hooked (post "application/json")
              (Before (infoBefore "Calc.Add" replacement)) eq_refl Hin)
    as (codec & method & svc & sm & args & _ & Hcodec & Hm & _ & _ & Hev).
  exists codec. split; [exact Hcodec|].
  destruct Hev as [Hev|[Hev|Hev]]; [discriminate Hev| |discriminate Hev].
  assert (method = "Calc.Add") as <- by (unfold infoBefore in Hev; congruence).
  exact Hm.
Defined.

Lemma X10_encoded_reply_is_the_methods_witness :
  CodecWriteResponse (Codec.NewRequest json (post "application/json")) "sum of 2,3"
  ∈ trace (ServeHTTP hooked (post "application/json"))
  ∧ ∃ f v q a, Call f v q a ∈ trace (ServeHTTP hooked (post "application/json"))
               ∧ Func f v q a = ("sum of 2,3", None).
Proof.
  assert (CodecWriteResponse (Codec.NewRequest json (post "application/json")) "sum of 2,3"
          ∈ trace (ServeHTTP hooked (post "application/json"))) as Hin by here.
  split; [exact Hin|].
  destruct (X10_encoded_reply_is_the_methods hooked (post "application/json") _ _ Hin)
    as (codec & f & v & q & a & _ & _ & Hcall & Hf).
  by exists f, v, q, a.
Defined.

Lemma X12_codec_calls_on_selected_codec_witness :
  "POST" ∈ Server.supportedMethods hooked
  ∧ selectCodec hooked (mediaType (post "application/json")) = Some json
  ∧ ∀ ev c, ev ∈ trace (ServeHTTP hooked (post "application/json")) →
            codecRequestOf ev = Some c →
            c = Codec.NewRequest json (post "application/json").
Proof.
  assert ("POST" ∈ Server.supportedMethods hooked) as Hverb
    by (apply POST_supported; reflexivity).
  assert (selectCodec hooked (mediaType (post "application/json")) = Some json) as Hcodec
    by (vm_compute; reflexivity).
  split; [exact Hverb|]. split; [exact Hcodec|].
  intros ev c.
  exact (X12_codec_calls_on_selected_codec hooked (post "application/json") json ev c Hverb Hcodec).
Defined.

Lemma X13_nosniff_after_successful_call_witness :
  HeaderSet "x-content-type-options" "nosniff"
  ∈ trace (ServeHTTP hooked (post "application/json"))
  ∧ ∃ f v q a, Call f v q a ∈ trace (ServeHTTP hooked (post "application/json"))
               ∧ (Func f v q a).2 = None.
Proof.
  assert (HeaderSet "x-content-type-options" "nosniff"
          ∈ trace (ServeHTTP hooked (post "application/json"))) as Hin by here.
  split; [exact Hin|].
  apply (proj2 (X13_nosniff_after_successful_call hooked (post "application/json"))).
  by eexists _, _.
Defined.

Lemma X14_called_as_its_signature_asks_witness :
  registry_ok (Server.services hooked)
  ∧ Call (add (ptr Calc)) aCalc (Some replacement) "2,3"
    ∈ trace (ServeHTTP hooked (post "application/json"))
  ∧ reflect.NumIn (Typ (add (ptr Calc))) = 4.
Proof.
  assert (registry_ok (Server.services hooked)) as Hok by exact withCalc_ok.
  assert (Call (add (ptr Calc)) aCalc (Some replacement) "2,3"
          ∈ trace (ServeHTTP hooked (post "application/json"))) as Hin by here.
  split; [exact Hok|]. split; [exact Hin|].
  exact (proj1 (proj2 (proj2
    (X14_called_as_its_signature_asks hooked (post "application/json") _ _ _ _ Hok Hin)))).
Defined.

Lemma X17_registered_codec_is_selected_witness :
  ToLower "text/xml; charset=utf-8" ≠ ToLower "Text/XML"
  ∧ ToLower "text/xml" = ToLower "Text/XML"
  ∧ selectCodec (RegisterCodec server xml "Text/XML") "text/xml" = Some xml
  ∧ selectCodec (RegisterCodec server xml "Text/XML") "application/json"
    = selectCodec server "application/json".
Proof.
  destruct (X17_registered_codec_is_selected server xml "Text/XML") as [Hsel Hother].
  split; [discriminate|]. split; [reflexivity|].
  split; [apply Hsel; reflexivity|].
  apply Hother; discriminate.
Defined.

Lemma X18_second_codec_ends_the_default_witness :
  size (Server.codecs server) = 1%nat
  ∧ selectCodec server "" = Some json
  ∧ selectCodec (RegisterCodec server xml "text/xml") "" = None.
Proof.
  assert (size (Server.codecs server) = 1%nat) as Hsize by (vm_compute; reflexivity).
  split; [exact Hsize|]. split; [vm_compute; reflexivity|].
  apply (X18_second_codec_ends_the_default server xml "text/xml" Hsize);
    [vm_compute; reflexivity|vm_compute; reflexivity|discriminate].
Defined.

Lemma X19_mutex_taken_iff_held_witness :
  reachable twoCalcs empty (run twoCalcs [0; 1; 0]%nat (start empty))
  ∧ locked (run twoCalcs [0; 1; 0]%nat (start empty)) = true
  ∧ ∃ t, holds (pcs (run twoCalcs [0; 1; 0]%nat (start empty)) t).
Proof.
  assert (reachable twoCalcs empty (run twoCalcs [0; 1; 0]%nat (start empty))) as Hreach
    by (by eexists).
  split; [exact Hreach|]. split; [reflexivity|].
  apply (proj1 (X19_mutex_taken_iff_held twoCalcs empty _ Hreach)). reflexivity.
Defined.

Lemma X20_mutex_is_released_witness :
  reachable twoCalcs empty (run twoCalcs [0]%nat (start empty))
  ∧ holds (pcs (run twoCalcs [0]%nat (start empty)) 0%nat)
  ∧ locked (run twoCalcs [0; 0; 0; 0]%nat (start empty)) = false.
Proof.
  assert (reachable twoCalcs empty (run twoCalcs [0]%nat (start empty))) as Hreach
    by (by eexists).
  assert (holds (pcs (run twoCalcs [0]%nat (start empty)) 0%nat)) as Hholds by exact I.
  split; [exact Hreach|]. split; [exact Hholds|].
  exact (proj1 (proj1 (X20_mutex_is_released twoCalcs empty _ 0%nat Hreach) Hholds)).
Defined.

End MoreWitnesses.
